(** * Request engine: the module pipelines of [RequestFactory]

    A shallow embedding of [src/RequestFactory.js]: the capability context
    handed to a module ([buildExecutionContext], [prepareExecutionEvents],
    [prepareExecutionStore]), the map of abort controllers ([abort]) and
    the two module pipelines ([processRequest], [processResponse],
    [executeRequestModule], [executeResponseModule]).

    JavaScript objects live in a heap and are referred to by location, so
    that sharing is visible: the environment object is one object handed to
    every module of a run, and an [AbortController] is one object whether it
    is held by a running pipeline or by the [abortControllers] map.

    An [async] method is a function of the request object and the state.
    At each [await] the host may run: at the [await] of a module or of a
    collaborator, and at the [await] of the factory's own
    [buildExecutionContext], which falls between the loop's look at
    [signal.aborted] and the call of the module. What the host can do to the
    factory meanwhile is to call [abort]; those calls are part of what the
    awaited call, or the host, is given as. Calls of [processRequest] and
    [processResponse] run one at a time. Modules and collaborators edit the
    request's content; they do not register modules. What a module throws
    or rejects with is any value: [catch (e)] does not ask for an [Error]. *)

From stdpp Require Import gmap strings list fin_maps.


(** ** JavaScript values and plain objects *)

Definition loc := nat.

(** A value is [undefined], a string, a binding imported from another
    package (the event and store helper namespaces, the DOM event target),
    or a reference to a plain object of the heap. *)
Inductive js_value :=
| JsUndefined
| JsString (s : string)
| JsImport (path : string)
| JsRef (l : loc).

#[global] Instance js_value_eq_dec : EqDecision js_value.
Proof. solve_decision. Defined.

(** A plain object: its own properties and whether [Object.freeze] was
    applied to it. *)
Record js_object := JsObject {
  props : gmap string js_value;
  frozen : bool
}.

(** The heap of plain objects; an object's location is its index, objects are
    never collected. *)
Abbreviation js_heap := (list js_object).

(** An object literal [{ k1: v1, ... }]: a new, extensible object. *)
Definition js_new (fields : list (string * js_value)) (h : js_heap) : loc * js_heap :=
  (length h, h ++ [JsObject (list_to_map fields) false]).

(** [o.k] *)
Definition js_get (l : loc) (k : string) (h : js_heap) : js_value :=
  match h !! l with
  | Some o => default JsUndefined (props o !! k)
  | None => JsUndefined
  end.

(** [k in o] for own properties. *)
Definition js_has (l : loc) (k : string) (h : js_heap) : bool :=
  match h !! l with
  | Some o => bool_decide (is_Some (props o !! k))
  | None => false
  end.

(** [o.k = v]. On a frozen object the assignment does not happen (it is
    ignored in sloppy code and is a TypeError in strict code): either way the
    heap is left as it was. *)
Definition js_assign (l : loc) (k : string) (v : js_value) (h : js_heap) : js_heap :=
  match h !! l with
  | Some o =>
      if frozen o then h
      else <[l := JsObject (<[k := v]> (props o)) false]> h
  | None => h
  end.

(** [delete o.k], with the same treatment of frozen objects. *)
Definition js_delete (l : loc) (k : string) (h : js_heap) : js_heap :=
  match h !! l with
  | Some o =>
      if frozen o then h
      else <[l := JsObject (delete k (props o)) false]> h
  | None => h
  end.

(** [Object.freeze(o)]: shallow, the objects that [o] refers to are not
    touched. *)
Definition Object_freeze (l : loc) (h : js_heap) : js_heap :=
  match h !! l with
  | Some o => <[l := JsObject (props o) true]> h
  | None => h
  end.

(** [permissions.includes(name)] *)
Definition includes (permissions : list string) (name : string) : bool :=
  bool_decide (name ∈ permissions).

(** An object is frozen in a heap. *)
Definition is_frozen (h : js_heap) (l : loc) : Prop :=
  ∃ o, h !! l = Some o ∧ frozen o = true.

(** Objects reachable from a location by following property references. *)
Inductive reachable (h : js_heap) : loc → loc → Prop :=
| reachable_here l : reachable h l l
| reachable_step l o k l' l'' :
    h !! l = Some o → props o !! k = Some (JsRef l') →
    reachable h l' l'' → reachable h l l''.

(** Deep immutability: every object reachable from [l] is frozen. *)
Definition deeply_frozen (h : js_heap) (l : loc) : Prop :=
  ∀ l', reachable h l l' → is_frozen h l'.

(** ** Requests, modules and the factory *)

(** The [request] sub-record of an editor request: the part that actions,
    variable evaluation and modules edit in place. *)
Record ArcBaseRequest := {
  url : string;
  method : string;
  headers : string;
  payload : string
}.

(** The editor request. Its [id] is assigned by the editor and is stable;
    what changes while the object travels through a pipeline is its
    [request] sub-record. *)
Record ArcEditorRequest := {
  id : string;
  request : ArcBaseRequest
}.

Record TransportRequest := {
  httpMessage : string;
  startTime : Z;
  endTime : Z
}.

Inductive ArcResponse :=
| Response (status : Z) (body : string)
| ErrorResponse (error : string).

(** [{ evaluateVariables?: boolean }], for both pipelines. *)
Record ProcessOptions := {
  evaluateVariables : option bool
}.

(** A value thrown, or one a promise is rejected with. [catch (e)] binds
    whatever it was:
    - an [Error] ([new Error(message)]), or any other object whose [message]
      holds that string;
    - a [TypeError], the error that reading a property of [null] or of
      [undefined] throws;
    - [null] or [undefined] ([throw null], [Promise.reject()]);
    - a string, thrown as it is.
    A thrown object whose [message] is something else than a string is not
    modelled. *)
Inductive JsError :=
| Error (message : string)
| TypeError (message : string)
| ThrownNull
| ThrownUndefined
| ThrownString (s : string).

#[global] Instance JsError_eq_dec : EqDecision JsError.
Proof. solve_decision. Defined.

(** [e.message]: the string an error object holds; [undefined] ([None]) for
    a string, which has no such property; and for [null] and [undefined] the
    read throws a [TypeError] (the wording of its message is the one of V8). *)
Definition message (e : JsError) : JsError + option string :=
  match e with
  | Error message | TypeError message => inr (Some message)
  | ThrownString _ => inr None
  | ThrownNull => inl (TypeError "Cannot read properties of null (reading 'message')")
  | ThrownUndefined =>
      inl (TypeError "Cannot read properties of undefined (reading 'message')")
  end.

(** [`${v}`] for a value that is a string or [undefined]. *)
Definition interpolate (v : option string) : string := default "undefined" v.

(** How a promise settles. *)
Inductive Promise (A : Type) :=
| Resolved (a : A)
| Rejected (e : JsError).
Arguments Resolved {A} a.
Arguments Rejected {A} e.

#[global] Instance Promise_eq_dec {A} `{EqDecision A} : EqDecision (Promise A).
Proof. solve_decision. Defined.

(** Modelled from the spec: [ExecutionResponse.js], which the source imports
    and compares a module's result with, is not among the sources. The spec
    gives the signal a module returns as a closed enumeration, [CONTINUE]
    (the default) or [ABORT]. A module that returns nothing resolves to
    [None]. *)
Inductive ExecutionResponse := CONTINUE | ABORT.

#[global] Instance ExecutionResponse_eq_dec : EqDecision ExecutionResponse.
Proof. solve_decision. Defined.

(** [result === ExecutionResponse.ABORT] *)
Definition is_ABORT (result : option ExecutionResponse) : bool :=
  bool_decide (result = Some ABORT).

(** What awaiting a call into a module or a collaborator amounts to: while
    the promise is pending the host may call [abort] (the ids of these calls,
    in order), and then the promise settles. *)
Record Awaited (A : Type) := {
  abort_calls : list string;
  settled : Promise A
}.
Arguments abort_calls {A} _.
Arguments settled {A} _.

(** A module function is given the editor request, the heap in which its
    context lives, the context, and its signal ([signal.aborted] as it reads
    at the call); a response module also the transport request and the
    response. It leaves the request's content as its first result. *)
Definition RequestModuleFn : Type :=
  ArcEditorRequest → js_heap → loc → bool →
  ArcBaseRequest * Awaited (option ExecutionResponse).

Definition ResponseModuleFn : Type :=
  ArcEditorRequest → TransportRequest → ArcResponse → js_heap → loc → bool →
  ArcBaseRequest * Awaited (option ExecutionResponse).

Record RegisteredModule (F : Type) := {
  fn : F;
  permissions : list string
}.
Arguments fn {F} _.
Arguments permissions {F} _.

Abbreviation RegisteredRequestModule := (RegisteredModule RequestModuleFn).
Abbreviation RegisteredResponseModule := (RegisteredModule ResponseModuleFn).

(** The [ActionsRunner] instance of the factory. *)
Record ActionsRunner := {
  processRequestActions :
    ArcEditorRequest → option bool → ArcBaseRequest * Awaited unit;
  processResponseActions :
    ArcEditorRequest → TransportRequest → ArcResponse → option bool →
    ArcBaseRequest * Awaited unit
}.

(** A [RequestFactory] instance: the fields its constructor sets. The
    [abortControllers] map, which changes, is part of the state below. *)
Record RequestFactory := {
  eventsTarget : js_value;
  jexl : js_value;
  actions : ActionsRunner
}.

(** ** The capability context *)

(** The object literal of [prepareExecutionEvents]. *)
Definition ExecutionEvents_literal : list (string * js_value) :=
  [ ("ArcNavigationEvents", JsImport "Events.ArcNavigationEvents");
    ("SessionCookieEvents", JsImport "Events.SessionCookieEvents");
    ("EncryptionEvents", JsImport "Events.EncryptionEvents");
    ("GoogleDriveEvents", JsImport "Events.GoogleDriveEvents");
    ("ProcessEvents", JsImport "Events.ProcessEvents");
    ("WorkspaceEvents", JsImport "Events.WorkspaceEvents");
    ("RequestEvents", JsImport "Events.RequestEvents");
    ("AuthorizationEvents", JsImport "Events.AuthorizationEvents");
    ("ConfigEvents", JsImport "Events.ConfigEvents") ].

(** [prepareExecutionEvents()] *)
Definition prepareExecutionEvents (h : js_heap) : loc * js_heap :=
  let '(result, h) := js_new ExecutionEvents_literal h in
  (result, Object_freeze result h).

(** The object literal of [prepareExecutionStore]. *)
Definition ExecutionStore_literal : list (string * js_value) :=
  [ ("AuthData", JsImport "ArcModelEvents.AuthData");
    ("ClientCertificate", JsImport "ArcModelEvents.ClientCertificate");
    ("HostRules", JsImport "ArcModelEvents.HostRules");
    ("Project", JsImport "ArcModelEvents.Project");
    ("Request", JsImport "ArcModelEvents.Request");
    ("RestApi", JsImport "ArcModelEvents.RestApi");
    ("UrlHistory", JsImport "ArcModelEvents.UrlHistory");
    ("UrlIndexer", JsImport "ArcModelEvents.UrlIndexer");
    ("WSUrlHistory", JsImport "ArcModelEvents.WSUrlHistory") ].

(** [prepareExecutionStore(hasEnvironment)] *)
Definition prepareExecutionStore (hasEnvironment : bool) (h : js_heap) : loc * js_heap :=
  let '(result, h) := js_new ExecutionStore_literal h in
  let h :=
    if hasEnvironment then
      let h := js_assign result "Environment" (JsImport "ArcModelEvents.Environment") h in
      js_assign result "Variable" (JsImport "ArcModelEvents.Variable") h
    else h in
  (result, Object_freeze result h).

(** [buildExecutionContext(permissions, environment)]. [environment] is the
    reference the caller holds: it is stored in the context as it is. *)
Definition buildExecutionContext (this : RequestFactory) (permissions : list string)
    (environment : js_value) (h : js_heap) : loc * js_heap :=
  let '(result, h) := js_new [ ("eventsTarget", eventsTarget this) ] h in
  let hasEnvironment := includes permissions "environment" in
  let h := if hasEnvironment then js_assign result "environment" environment h else h in
  let h :=
    if includes permissions "events" then
      let '(events, h) := prepareExecutionEvents h in
      js_assign result "Events" (JsRef events) h
    else h in
  let h :=
    if includes permissions "store" then
      let '(store, h) := prepareExecutionStore hasEnvironment h in
      js_assign result "Store" (JsRef store) h
    else h in
  (result, Object_freeze result h).


(** ** Collaborators and the state of the engine *)

(** What surrounds the factory. The imported collaborators:
    [ArcModelEvents.Environment.current], which resolves to (a reference to)
    the environment state object, and [VariablesProcessor#evaluateVariables],
    built from [jexl] and the environment's variables and run over the
    named fields. And the host's turn while the factory awaits its own
    [buildExecutionContext] for the module of a given id: the ids the host
    calls [abort] with then, in order. *)
Record Imports := {
  Environment_current : js_value → Awaited loc;
  VariablesProcessor_evaluateVariables :
    js_value → js_value → ArcBaseRequest → list string →
    ArcBaseRequest * Awaited unit;
  abort_calls_before : string → list string
}.

(** What can be observed of a run: a module function is called (with which
    controller's signal and on which content), the host calls [abort], a
    module's promise settles (leaving which content). *)
Inductive event :=
| Invoked (name : string) (controller : loc) (content : ArcBaseRequest)
| AbortCalled (name : string)
| Settled (name : string) (result : Promise (option ExecutionResponse))
    (content : ArcBaseRequest).

(** The mutable state: the [abortControllers] map of the factory, every
    [AbortController] created so far (a controller is its index, the entry
    is [signal.aborted]), the heap of plain objects, the two ordered maps of
    [ModulesRegistry], the console and the trace. *)
Record State := {
  abortControllers : gmap string loc;
  controllers : list bool;
  objects : js_heap;
  requestModules : list (string * RegisteredRequestModule);
  responseModules : list (string * RegisteredResponseModule);
  console : list JsError;
  trace : list event
}.

Definition with_abortControllers (f : gmap string loc → gmap string loc) (σ : State) : State :=
  {| abortControllers := f (abortControllers σ); controllers := controllers σ;
     objects := objects σ; requestModules := requestModules σ;
     responseModules := responseModules σ; console := console σ; trace := trace σ |}.

Definition with_controllers (f : list bool → list bool) (σ : State) : State :=
  {| abortControllers := abortControllers σ; controllers := f (controllers σ);
     objects := objects σ; requestModules := requestModules σ;
     responseModules := responseModules σ; console := console σ; trace := trace σ |}.

Definition with_objects (h : js_heap) (σ : State) : State :=
  {| abortControllers := abortControllers σ; controllers := controllers σ;
     objects := h; requestModules := requestModules σ;
     responseModules := responseModules σ; console := console σ; trace := trace σ |}.

Definition console_warn (e : JsError) (σ : State) : State :=
  {| abortControllers := abortControllers σ; controllers := controllers σ;
     objects := objects σ; requestModules := requestModules σ;
     responseModules := responseModules σ; console := console σ ++ [e];
     trace := trace σ |}.

Definition log (ev : event) (σ : State) : State :=
  {| abortControllers := abortControllers σ; controllers := controllers σ;
     objects := objects σ; requestModules := requestModules σ;
     responseModules := responseModules σ; console := console σ;
     trace := trace σ ++ [ev] |}.

Definition with_content (content : ArcBaseRequest) (r : ArcEditorRequest) : ArcEditorRequest :=
  {| id := id r; request := content |}.

(** The state a factory starts in ([new RequestFactory(...)]) with the given
    registered modules and heap. *)
Definition constructor (requests : list (string * RegisteredRequestModule))
    (responses : list (string * RegisteredResponseModule)) (h : js_heap) : State :=
  {| abortControllers := ∅; controllers := []; objects := h;
     requestModules := requests; responseModules := responses;
     console := []; trace := [] |}.

(** ** Abort controllers *)

(** [new AbortController()] *)
Definition new_AbortController (σ : State) : loc * State :=
  (length (controllers σ), with_controllers (λ cs, cs ++ [false]) σ).

(** [signal.aborted] of a controller's signal. *)
Definition signal_aborted (controller : loc) (σ : State) : bool :=
  default false (controllers σ !! controller).

(** [abort(id)] *)
Definition abort (name : string) (σ : State) : State :=
  match abortControllers σ !! name with
  | None => σ
  | Some controller =>
      with_abortControllers (delete name)
        (with_controllers (λ cs, <[controller := true]> cs) σ)
  end.

(** The host's calls of [abort] while a promise is pending. *)
Definition host_abort (σ : State) (name : string) : State :=
  abort name (log (AbortCalled name) σ).

Definition interleave (names : list string) (σ : State) : State :=
  foldl host_abort σ names.

(** Every controller held by the map has been created. *)
Definition registry_wf (σ : State) : Prop :=
  map_Forall (λ _ c, c < length (controllers σ)) (abortControllers σ).

(** ** Asynchronous methods

    An [async] method body runs against the request object it was handed
    (edited in place) and the state; it ends resolved with a value or
    rejected with an error, and whatever it did before stays done. *)

Definition Async (A : Type) : Type :=
  ArcEditorRequest → State → Promise A * ArcEditorRequest * State.

Definition ret {A} (a : A) : Async A := λ r σ, (Resolved a, r, σ).

Definition throw {A} (e : JsError) : Async A := λ r σ, (Rejected e, r, σ).

Definition bind {A B} (m : Async A) (k : A → Async B) : Async B :=
  λ r σ,
    match m r σ with
    | (Resolved a, r, σ) => k a r σ
    | (Rejected e, r, σ) => (Rejected e, r, σ)
    end.

Notation "'do' x <- m ; k" := (bind m (λ x, k))
  (at level 100, x pattern, m at level 99, k at level 200, right associativity).
Notation "m ;; k" := (bind m (λ _, k))
  (at level 100, k at level 200, right associativity).

(** The request object as it stands. *)
Definition the_request : Async ArcEditorRequest := λ r σ, (Resolved r, r, σ).

(** A read of the state and a step on it. *)
Definition gets {A} (f : State → A) : Async A := λ r σ, (Resolved (f σ), r, σ).

Definition modify (f : State → State) : Async unit := λ r σ, (Resolved tt, r, f σ).

Definition alloc {A} (f : State → A * State) : Async A :=
  λ r σ, let '(a, σ) := f σ in (Resolved a, r, σ).

(** [await] of a call that only computes a value. *)
Definition await {A} (call : Awaited A) : Async A :=
  λ r σ, (settled call, r, interleave (abort_calls call) σ).

(** [await] of a call that was handed the request: the edits it made are on
    the object whether it resolves or rejects. *)
Definition await_edit {A} (call : ArcBaseRequest * Awaited A) : Async A :=
  λ r σ, (settled (call.2), with_content (call.1) r, interleave (abort_calls (call.2)) σ).

(** [try { ... } catch (e) { ... }] *)
Definition try_catch {A} (m : Async A) (handler : JsError → Async A) : Async A :=
  λ r σ,
    match m r σ with
    | (Resolved a, r, σ) => (Resolved a, r, σ)
    | (Rejected e, r, σ) => handler e r σ
    end.

(** [await] of a module function: the call and the settlement are
    recorded in the trace, around what the host does meanwhile. *)
Definition await_module (name : string) (signal : loc)
    (call : ArcBaseRequest * Awaited (option ExecutionResponse))
    : Async (option ExecutionResponse) :=
  do r <- the_request;
  modify (log (Invoked name signal (request r)));;
  try_catch
    (do result <- await_edit call;
     modify (log (Settled name (Resolved result) (call.1)));;
     ret result)
    (λ e, modify (log (Settled name (Rejected e) (call.1)));; throw e).

(** [e.message] in a method body: the read may throw. *)
Definition read_message (e : JsError) : Async (option string) :=
  match message e with
  | inl thrown => throw thrown
  | inr v => ret v
  end.

(** ** The pipelines *)

(** [await this.buildExecutionContext(permissions, environment)] for the
    module [name]: the method builds the context in the state's heap at
    once, and the caller goes on only after the host has had its turn. *)
Definition build_context (host : Imports) (this : RequestFactory) (name : string)
    (permissions : list string) (environment : js_value) : Async loc :=
  do context <- alloc (λ σ,
    let '(context, h) := buildExecutionContext this permissions environment (objects σ) in
    (context, with_objects h σ));
  modify (interleave (abort_calls_before host name));;
  ret context.

(** [executeRequestModule(request, id, info, environment, signal)] *)
Definition executeRequestModule (host : Imports) (this : RequestFactory) (name : string)
    (info : RegisteredRequestModule) (environment : js_value) (signal : loc)
    : Async (option ExecutionResponse) :=
  do context <- build_context host this name (permissions info) environment;
  do r <- the_request;
  do h <- gets objects;
  do aborted <- gets (signal_aborted signal);
  try_catch
    (await_module name signal (fn info r h context aborted))
    (λ e,
      modify (console_warn e);;
      do e_message <- read_message e;
      let message :=
        "Request module " +:+ name +:+ " reported error: " +:+ interpolate e_message in
      throw (Error message)).

(** [executeResponseModule(request, executed, response, id, info, environment, signal)] *)
Definition executeResponseModule (host : Imports) (this : RequestFactory)
    (executed : TransportRequest) (response : ArcResponse) (name : string)
    (info : RegisteredResponseModule) (environment : js_value) (signal : loc)
    : Async (option ExecutionResponse) :=
  do context <- build_context host this name (permissions info) environment;
  do r <- the_request;
  do h <- gets objects;
  do aborted <- gets (signal_aborted signal);
  try_catch
    (await_module name signal (fn info r executed response h context aborted))
    (λ e,
      modify (console_warn e);;
      do e_message <- read_message e;
      let message :=
        "Request module " +:+ name +:+ " reported error: " +:+ interpolate e_message in
      throw (Error message)).

(** The [return] statement at which a pipeline's loop is left, short of a
    rejection: the one under [if (signal.aborted)], the one under
    [if (result === ExecutionResponse.ABORT)], or the end of the loop. *)
Inductive LoopExit := Cancelled | ModuleAborted | Finished.

#[global] Instance LoopExit_eq_dec : EqDecision LoopExit.
Proof. solve_decision. Defined.

(** [this.abortControllers.delete(request.id)] *)
Definition abortControllers_delete : Async unit :=
  do r <- the_request;
  modify (with_abortControllers (delete (id r))).

(** [this.abortControllers.set(request.id, abortController)] *)
Definition abortControllers_set (abortController : loc) : Async unit :=
  do r <- the_request;
  modify (with_abortControllers (<[id r := abortController]>)).

(** The [for] loop of [processRequest]. *)
Fixpoint processRequest_modules (host : Imports) (this : RequestFactory)
    (modules : list (string * RegisteredRequestModule)) (environment : js_value)
    (abortController : loc) : Async LoopExit :=
  match modules with
  | [] => ret Finished
  | (name, main) :: modules =>
      do aborted <- gets (signal_aborted abortController);
      if (aborted : bool) then
        abortControllers_delete;;
        ret Cancelled
      else
        do result <- executeRequestModule host this name main environment abortController;
        if is_ABORT result then ret ModuleAborted
        else processRequest_modules host this modules environment abortController
  end.

(** [processRequest] up to the end of its loop. *)
Definition processRequest_run (host : Imports) (this : RequestFactory)
    (options : ProcessOptions) : Async (loc * LoopExit) :=
  do abortController <- alloc new_AbortController;
  do r <- the_request;
  await_edit (processRequestActions (actions this) r (evaluateVariables options));;
  do environment <- await (Environment_current host (eventsTarget this));
  (if bool_decide (evaluateVariables options = Some false) then ret tt
   else
     do r <- the_request;
     do h <- gets objects;
     await_edit (VariablesProcessor_evaluateVariables host (jexl this)
       (js_get environment "variables" h) (request r)
       ["url"; "headers"; "method"; "payload"]));;
  do modules <- gets requestModules;
  do exit <- processRequest_modules host this modules (JsRef environment) abortController;
  ret (abortController, exit).

(** [processRequest(request, options)]: resolves to the request, or to
    [null] ([None]). *)
Definition processRequest (host : Imports) (this : RequestFactory)
    (options : ProcessOptions)
    : Async (option ArcEditorRequest) :=
  do (abortController, exit) <- processRequest_run host this options;
  match exit with
  | Cancelled | ModuleAborted => ret None
  | Finished =>
      abortControllers_set abortController;;
      do r <- the_request;
      ret (Some r)
  end.

(** The [for] loop of [processResponse]. *)
Fixpoint processResponse_modules (host : Imports) (this : RequestFactory)
    (executed : TransportRequest) (response : ArcResponse)
    (modules : list (string * RegisteredResponseModule))
    (environment : js_value) (abortController : loc) : Async LoopExit :=
  match modules with
  | [] => ret Finished
  | (name, main) :: modules =>
      do aborted <- gets (signal_aborted abortController);
      if (aborted : bool) then
        abortControllers_delete;;
        ret Cancelled
      else
        do result <- executeResponseModule host this executed response name main
                       environment abortController;
        if is_ABORT result then
          abortControllers_delete;;
          ret ModuleAborted
        else
          processResponse_modules host this executed response modules environment
            abortController
  end.

(** [let abortController = this.abortControllers.get(request.id);
     if (!abortController) { abortController = new AbortController(); }] *)
Definition get_or_new_AbortController : Async loc :=
  do r <- the_request;
  do found <- gets (λ σ, abortControllers σ !! id r);
  match found with
  | Some abortController => ret abortController
  | None => alloc new_AbortController
  end.

(** [processResponse] up to the end of its loop. *)
Definition processResponse_run (host : Imports) (this : RequestFactory)
    (executed : TransportRequest) (response : ArcResponse)
    (options : ProcessOptions) : Async (loc * LoopExit) :=
  do abortController <- get_or_new_AbortController;
  do r <- the_request;
  await_edit (processResponseActions (actions this) r executed response
                (evaluateVariables options));;
  do modules <- gets responseModules;
  do environment <- await (Environment_current host (eventsTarget this));
  do exit <- processResponse_modules host this executed response modules
               (JsRef environment) abortController;
  ret (abortController, exit).

(** [processResponse(request, executed, response, options)]: resolves to
    [undefined]. *)
Definition processResponse (host : Imports) (this : RequestFactory)
    (executed : TransportRequest) (response : ArcResponse)
    (options : ProcessOptions) : Async unit :=
  do (_, exit) <- processResponse_run host this executed response options;
  match exit with
  | Cancelled | ModuleAborted => ret tt
  | Finished => abortControllers_delete
  end.

(** ** Reading a run off the trace *)

(** What a pipeline rejects with when module [name] threw [e]: what the
    [catch] block of the module's call throws. *)
Definition module_error (name : string) (e : JsError) : JsError :=
  match message e with
  | inl thrown => thrown
  | inr e_message =>
      Error ("Request module " +:+ name +:+ " reported error: " +:+ interpolate e_message)
  end.

(** [needle] occurs in [text]. *)
Definition occurs_in (needle text : string) : Prop :=
  ∃ before after, text = before +:+ needle +:+ after.

(** The same as a test: [needle] starts [text], or occurs further on. *)
Fixpoint contains (needle text : string) : bool :=
  match text with
  | EmptyString => String.prefix needle text
  | String _ rest => String.prefix needle text || contains needle rest
  end.

(** The modules invoked, in the order of their invocation. *)
Definition invoked_names (evs : list event) : list string :=
  omap (λ ev, match ev with Invoked name _ _ => Some name | _ => None end) evs.

(** The controllers whose signals were handed to the modules invoked. *)
Definition invoked_controllers (evs : list event) : list loc :=
  omap (λ ev, match ev with Invoked _ c _ => Some c | _ => None end) evs.

(** The ids the host called [abort] with. *)
Definition abort_names (evs : list event) : list string :=
  omap (λ ev, match ev with AbortCalled name => Some name | _ => None end) evs.

(** Strictly sequential dispatch: a module is invoked only while none is
    running, and what settles is the running module. [running] is the module
    awaited at the start of the trace, if any. *)
Fixpoint sequential (running : option string) (evs : list event) : bool :=
  match evs with
  | [] => bool_decide (running = None)
  | Invoked name _ _ :: evs => bool_decide (running = None) && sequential (Some name) evs
  | AbortCalled _ :: evs => sequential running evs
  | Settled name _ _ :: evs => bool_decide (running = Some name) && sequential None evs
  end.

(** What awaiting one module call does to the request and the state, once
    the context is built in heap [h]. *)
Definition module_step (name : string) (c : loc) (h : js_heap)
    (call : ArcBaseRequest * Awaited (option ExecutionResponse))
    (r : ArcEditorRequest) (σ : State)
    : Promise (option ExecutionResponse) * ArcEditorRequest * State :=
  let σ1 := interleave (abort_calls (call.2))
              (log (Invoked name c (request r)) (with_objects h σ)) in
  let σ2 := log (Settled name (settled (call.2)) (call.1)) σ1 in
  match settled (call.2) with
  | Resolved result => (Resolved result, with_content (call.1) r, σ2)
  | Rejected e => (Rejected (module_error name e), with_content (call.1) r, console_warn e σ2)
  end.

(** A stretch of a run in which the factory leaves its map alone: the trace
    grows by [evs], the map loses the ids the host aborted and nothing else,
    no controller is lost, the module registry is as it was. *)
Definition host_only (evs : list event) (σ σ' : State) : Prop :=
  trace σ' = trace σ ++ evs ∧
  abortControllers σ' = foldl (λ m name, delete name m) (abortControllers σ) (abort_names evs) ∧
  length (controllers σ) ≤ length (controllers σ') ∧
  requestModules σ' = requestModules σ ∧
  responseModules σ' = responseModules σ.

(** The traces of a loop over the modules [names] with controller [c], from
    the content the request has to the content it is left with, by the way
    the loop ends. The host's calls come [before] a module is called, while
    its context is awaited, and while the module runs. *)
Inductive run_trace (c : loc) :
    list string → ArcBaseRequest → Promise LoopExit → list event → ArcBaseRequest → Prop :=
| run_finished content :
    run_trace c [] content (Resolved Finished) [] content
| run_cancelled name names content :
    run_trace c (name :: names) content (Resolved Cancelled) [] content
| run_continue name names content before aborts result content' out evs final :
    result ≠ Some ABORT →
    run_trace c names content' out evs final →
    run_trace c (name :: names) content out
      (map AbortCalled before ++ Invoked name c content :: map AbortCalled aborts
         ++ Settled name (Resolved result) content' :: evs) final
| run_aborted name names content before aborts content' :
    run_trace c (name :: names) content (Resolved ModuleAborted)
      (map AbortCalled before ++ Invoked name c content :: map AbortCalled aborts
         ++ [Settled name (Resolved (Some ABORT)) content']) content'
| run_thrown name names content before aborts e content' :
    run_trace c (name :: names) content (Rejected (module_error name e))
      (map AbortCalled before ++ Invoked name c content :: map AbortCalled aborts
         ++ [Settled name (Rejected e) content']) content'.

(** The events a trace may show between an invocation and its settlement:
    anything but a settlement. *)
Definition is_call (ev : event) : Prop :=
  match ev with Settled _ _ _ => False | _ => True end.

(** The result of a method's loop, with the controller the loop ran with. *)
Definition tag_exit (c : loc) (out : Promise LoopExit) : Promise (loc * LoopExit) :=
  match out with
  | Resolved exit => Resolved (c, exit)
  | Rejected e => Rejected e
  end.

(** The controller [processResponse] runs with, and the state once it has it. *)
Definition response_controller (r : ArcEditorRequest) (σ : State) : loc * State :=
  match abortControllers σ !! id r with
  | Some c => (c, σ)
  | None => new_AbortController σ
  end.

(** What [processRequest] resolves to and leaves behind, by the way its loop
    ended in state [σ] with the request as [r]. *)
Definition request_outcome (c : loc) (r : ArcEditorRequest) (lout : Promise LoopExit)
    (σ : State) : Promise (option ArcEditorRequest) * State :=
  match lout with
  | Resolved Finished => (Resolved (Some r), with_abortControllers (<[id r := c]>) σ)
  | Resolved Cancelled => (Resolved None, with_abortControllers (delete (id r)) σ)
  | Resolved ModuleAborted => (Resolved None, σ)
  | Rejected e => (Rejected e, σ)
  end.

(** The same for [processResponse]. *)
Definition response_outcome (r : ArcEditorRequest) (lout : Promise LoopExit)
    (σ : State) : Promise unit * State :=
  match lout with
  | Resolved _ => (Resolved tt, with_abortControllers (delete (id r)) σ)
  | Rejected e => (Rejected e, σ)
  end.

(** A controller that no one can abort through the map: it has been created,
    its signal reads [false], and the map does not hold it. *)
Definition out_of_reach (c : loc) (σ : State) : Prop :=
  controllers σ !! c = Some false ∧
  ∀ name c', abortControllers σ !! name = Some c' → c' ≠ c.

(** ** The heap a context is built into, in closed form *)

(** The frozen bundles of [prepareExecutionEvents] and [prepareExecutionStore]. *)
Definition events_object : js_object :=
  JsObject (list_to_map ExecutionEvents_literal) true.

Definition store_object (hasEnvironment : bool) : js_object :=
  JsObject
    (if hasEnvironment then
       <["Variable" := JsImport "ArcModelEvents.Variable"]>
         (<["Environment" := JsImport "ArcModelEvents.Environment"]>
            (list_to_map ExecutionStore_literal))
     else list_to_map ExecutionStore_literal) true.

(** The properties of the context object, given where its bundles are. *)
Definition context_props (this : RequestFactory) (permissions : list string)
    (environment : js_value) (events store : loc) : gmap string js_value :=
  let m := {[ "eventsTarget" := eventsTarget this ]} in
  let m := if includes permissions "environment" then <["environment" := environment]> m else m in
  let m := if includes permissions "events" then <["Events" := JsRef events]> m else m in
  if includes permissions "store" then <["Store" := JsRef store]> m else m.

Definition events_part (permissions : list string) : js_heap :=
  if includes permissions "events" then [events_object] else [].

Definition store_part (permissions : list string) : js_heap :=
  if includes permissions "store"
  then [store_object (includes permissions "environment")] else [].

(** The names of the entries of the two literals. *)
Definition ExecutionEvents_names : list string :=
  ["ArcNavigationEvents"; "SessionCookieEvents"; "EncryptionEvents"; "GoogleDriveEvents";
   "ProcessEvents"; "WorkspaceEvents"; "RequestEvents"; "AuthorizationEvents"; "ConfigEvents"].

Definition ExecutionStore_names : list string :=
  ["AuthData"; "ClientCertificate"; "HostRules"; "Project"; "Request"; "RestApi";
   "UrlHistory"; "UrlIndexer"; "WSUrlHistory"].

(** ** A sample factory, sample modules and a sample request *)

Definition quiet {A} (p : Promise A) : Awaited A :=
  {| abort_calls := []; settled := p |}.

(** Actions that leave the request alone; while the request actions are
    pending the host calls [abort] for the ids [aborts]. *)
Definition sample_actions (aborts : list string) : ActionsRunner :=
  {| processRequestActions := λ r _,
       (request r, {| abort_calls := aborts; settled := Resolved tt |});
     processResponseActions := λ r _ _ _, (request r, quiet (Resolved tt)) |}.

(** The environment state object is the object at location [0]; variable
    evaluation leaves the request alone; the host makes no call while a
    context is awaited. *)
Definition sample_host : Imports :=
  {| Environment_current := λ _, quiet (Resolved 0);
     VariablesProcessor_evaluateVariables := λ _ _ content _, (content, quiet (Resolved tt));
     abort_calls_before := λ _, [] |}.

Definition sample_this (aborts : list string) : RequestFactory :=
  {| eventsTarget := JsImport "window"; jexl := JsImport "jexl";
     actions := sample_actions aborts |}.

Definition sample_heap : js_heap :=
  [JsObject {[ "variables" := JsString "host=example.org" ]} false].

(** A module's edit: it appends a line to the headers. *)
Definition add_header (line : string) (content : ArcBaseRequest) : ArcBaseRequest :=
  {| url := url content; method := method content;
     headers := headers content +:+ line; payload := payload content |}.

(** A request module that adds [line] to the headers and settles as given,
    the host calling [abort] for [aborts] meanwhile; and the same as a
    response module. *)
Definition request_module (line : string) (aborts : list string)
    (outcome : Promise (option ExecutionResponse)) : RegisteredRequestModule :=
  {| fn := λ r _ _ _, (add_header line (request r),
                        {| abort_calls := aborts; settled := outcome |});
     permissions := [] |}.

Definition response_module (line : string) (aborts : list string)
    (outcome : Promise (option ExecutionResponse)) : RegisteredResponseModule :=
  {| fn := λ r _ _ _ _ _, (add_header line (request r),
                            {| abort_calls := aborts; settled := outcome |});
     permissions := [] |}.

Definition sample_request : ArcEditorRequest :=
  {| id := "r1";
     request := {| url := "https://example.org/"; method := "GET";
                   headers := ""; payload := "" |} |}.

Definition sample_executed : TransportRequest :=
  {| httpMessage := "GET / HTTP/1.1"; startTime := 0; endTime := 1 |}.

Definition sample_response : ArcResponse := Response 200 "ok".

Definition default_options : ProcessOptions := {| evaluateVariables := None |}.

(** Three request modules, adding the header lines a, b and c: the host
    calls [abort] for [aborts] while the first runs, the second settles as
    given. Two response modules, adding x and y, the first settling as
    given. *)
Definition three_request_modules (aborts : list string)
    (second : Promise (option ExecutionResponse))
    : list (string * RegisteredRequestModule) :=
  [ ("m1", request_module "a" aborts (Resolved None));
    ("m2", request_module "b" [] second);
    ("m3", request_module "c" [] (Resolved (Some CONTINUE))) ].

Definition two_response_modules (first : Promise (option ExecutionResponse))
    : list (string * RegisteredResponseModule) :=
  [ ("p1", response_module "x" [] first);
    ("p2", response_module "y" [] (Resolved None)) ].

Definition sample_state (aborts : list string)
    (second first : Promise (option ExecutionResponse)) : State :=
  constructor (three_request_modules aborts second) (two_response_modules first)
    sample_heap.

(** The request and the state after a first, successful [processRequest]:
    the request has been through the three modules and its controller is
    held by the map. *)
Definition sent (first : Promise (option ExecutionResponse))
    : Promise (option ArcEditorRequest) * ArcEditorRequest * State :=
  processRequest sample_host (sample_this []) default_options sample_request
    (sample_state [] (Resolved None) first).

Definition sent_request : ArcEditorRequest := (sent (Resolved None)).1.2.

Definition sent_state (first : Promise (option ExecutionResponse)) : State :=
  (sent first).2.

(** The events a state's trace gained over an earlier state's. *)
Definition new_events (σ σ' : State) : list event :=
  drop (length (trace σ)) (trace σ').

(** The sample request's content with header lines added. *)
Definition edited (lines : string) : ArcBaseRequest :=
  add_header lines (request sample_request).

(** A state in which the map holds a controller for the sample request and
    the second request module throws. *)
Definition faulty_state : State :=
  {| abortControllers := {[ "r1" := 0 ]}; controllers := [false];
     objects := sample_heap;
     requestModules := three_request_modules [] (Rejected (Error "boom"));
     responseModules := []; console := []; trace := [] |}.

(** ** Further notions read off a state or a trace *)

(** The map is in order: every controller it holds has been created and
    reads not aborted, and no controller is held under two ids. *)
Definition registry_ok (σ : State) : Prop :=
  map_Forall (λ name c,
    controllers σ !! c = Some false ∧
    map_Forall (λ name' c', c' = c → name' = name) (abortControllers σ))
    (abortControllers σ).

(** Each module is invoked on the content the module before it left:
    [current] is the content last left by a settlement, if any. *)
Fixpoint handed_on (current : option ArcBaseRequest) (evs : list event) : Prop :=
  match evs with
  | [] => True
  | Invoked _ _ content :: evs =>
      (∀ left, current = Some left → content = left) ∧ handed_on current evs
  | AbortCalled _ :: evs => handed_on current evs
  | Settled _ _ content :: evs => handed_on (Some content) evs
  end.

(** The content the last settlement of a trace left, [current] if there is
    none. *)
Fixpoint left_with (current : ArcBaseRequest) (evs : list event) : ArcBaseRequest :=
  match evs with
  | [] => current
  | Settled _ _ content :: evs => left_with content evs
  | _ :: evs => left_with current evs
  end.

(** The errors thrown by the modules of a trace. *)
Definition thrown_errors (evs : list event) : list JsError :=
  omap (λ ev, match ev with Settled _ (Rejected e) _ => Some e | _ => None end) evs.

(** The trace and the console grow together: the console gains the errors
    thrown in the events the trace gains. *)
Definition logged (σ σ' : State) : Prop :=
  ∃ evs, trace σ' = trace σ ++ evs ∧ console σ' = console σ ++ thrown_errors evs.



(** The fields a context has for a permission list. *)
Definition context_field (permissions : list string) (k : string) : Prop :=
  k = "eventsTarget" ∨
  (k = "environment" ∧ "environment" ∈ permissions) ∨
  (k = "Events" ∧ "events" ∈ permissions) ∨
  (k = "Store" ∧ "store" ∈ permissions).

(** A state in which the map holds a controller for the sample request and
    the host calls [abort] for it while the first of two response modules
    runs. *)
Definition armed_state : State :=
  {| abortControllers := {[ "r1" := 0 ]}; controllers := [false];
     objects := sample_heap; requestModules := [];
     responseModules := [ ("p1", response_module "x" ["r1"] (Resolved None));
                          ("p2", response_module "y" [] (Resolved None)) ];
     console := []; trace := [] |}.

(** A host that calls [abort] for the sample request while the context of
    the module "p1" is awaited, and a state in which the map holds a
    controller for the sample request and two response modules are
    registered, during which the host makes no call. *)
Definition racing_host : Imports :=
  {| Environment_current := λ _, quiet (Resolved 0);
     VariablesProcessor_evaluateVariables := λ _ _ content _, (content, quiet (Resolved tt));
     abort_calls_before := λ name, if decide (name = "p1") then ["r1"] else [] |}.

Definition waiting_state : State :=
  {| abortControllers := {[ "r1" := 0 ]}; controllers := [false];
     objects := sample_heap; requestModules := [];
     responseModules := two_response_modules (Resolved None);
     console := []; trace := [] |}.

(** The same with no controller in the map. *)
Definition unsent_state : State :=
  constructor []
    [ ("p1", response_module "x" ["r1"] (Resolved None));
      ("p2", response_module "y" [] (Resolved None)) ] sample_heap.

(** A state in which the map holds controllers for the sample request and
    for another one, the host calls [abort] for the other one while the first
    request module runs, and the second request module returns [ABORT]. *)
Definition vetoing_state : State :=
  {| abortControllers := {[ "r1" := 0; "r2" := 1 ]}; controllers := [false; false];
     objects := sample_heap;
     requestModules := three_request_modules ["r2"] (Resolved (Some ABORT));
     responseModules := []; console := []; trace := [] |}.

(** The states a factory can be in: the one it is constructed in, and the
    ones it is left in by a call of one of its three public methods (each
    run until it settles, the host calling [abort] meanwhile as the awaited
    calls say) or by anything else the host does, which cannot touch the
    map, private to the factory, nor a controller, of which the host only
    ever sees the signal. *)
Inductive factory_state : State → Prop :=
| fs_constructor requests responses h :
    factory_state (constructor requests responses h)
| fs_host σ σ' :
    factory_state σ →
    abortControllers σ' = abortControllers σ → controllers σ' = controllers σ →
    factory_state σ'
| fs_abort name σ :
    factory_state σ → factory_state (abort name σ)
| fs_processRequest host this options r σ :
    factory_state σ → factory_state (processRequest host this options r σ).2
| fs_processResponse host this executed response options r σ :
    factory_state σ →
    factory_state (processResponse host this executed response options r σ).2.

(** A field of one of the two bundles of a context, [JsUndefined] when the
    context has no such bundle or the bundle no such field. *)
Definition bundle_get (context : loc) (bundle k : string) (h : js_heap) : js_value :=
  match js_get context bundle h with
  | JsRef b => js_get b k h
  | _ => JsUndefined
  end.

(** * Properties *)

(** ** The heap operations and the context builder *)

Lemma js_assign_at (h : js_heap) o t k v :
  frozen o = false →
  js_assign (length h) k v (h ++ o :: t) = h ++ JsObject (<[k := v]> (props o)) false :: t.
Proof.
  intros Hf. unfold js_assign. rewrite list_lookup_middle by done. rewrite Hf.
  rewrite insert_app_r_alt by lia. by rewrite Nat.sub_diag.
Qed.

Lemma js_delete_at (h : js_heap) o t k :
  frozen o = false →
  js_delete (length h) k (h ++ o :: t) = h ++ JsObject (delete k (props o)) false :: t.
Proof.
  intros Hf. unfold js_delete. rewrite list_lookup_middle by done. rewrite Hf.
  rewrite insert_app_r_alt by lia. by rewrite Nat.sub_diag.
Qed.

Lemma Object_freeze_at (h : js_heap) o t :
  Object_freeze (length h) (h ++ o :: t) = h ++ JsObject (props o) true :: t.
Proof.
  unfold Object_freeze. rewrite list_lookup_middle by done.
  rewrite insert_app_r_alt by lia. by rewrite Nat.sub_diag.
Qed.

Lemma js_assign_frozen (h : js_heap) l k v : is_frozen h l → js_assign l k v h = h.
Proof. intros (o & Ho & Hf). unfold js_assign. by rewrite Ho, Hf. Qed.

Lemma js_delete_frozen (h : js_heap) l k : is_frozen h l → js_delete l k h = h.
Proof. intros (o & Ho & Hf). unfold js_delete. by rewrite Ho, Hf. Qed.

Lemma prepareExecutionEvents_eq (h : js_heap) :
  prepareExecutionEvents h = (length h, h ++ [events_object]).
Proof. unfold prepareExecutionEvents, js_new. by rewrite Object_freeze_at. Qed.

Lemma prepareExecutionStore_eq hasEnvironment (h : js_heap) :
  prepareExecutionStore hasEnvironment h = (length h, h ++ [store_object hasEnvironment]).
Proof.
  unfold prepareExecutionStore, js_new, store_object.
  destruct hasEnvironment.
  - rewrite !js_assign_at by done. by rewrite Object_freeze_at.
  - by rewrite Object_freeze_at.
Qed.

Ltac heap_step :=
  repeat first
    [ rewrite prepareExecutionEvents_eq
    | rewrite prepareExecutionStore_eq
    | rewrite js_assign_at by done
    | rewrite Object_freeze_at
    | rewrite <- app_assoc
    | progress cbn [app]
    | progress cbv beta iota zeta ].

Lemma buildExecutionContext_eq this permissions environment (h : js_heap) :
  buildExecutionContext this permissions environment h =
    (length h,
     h ++ JsObject (context_props this permissions environment
                      (S (length h)) (S (length h) + length (events_part permissions))) true
       :: events_part permissions ++ store_part permissions).
Proof.
  unfold buildExecutionContext, js_new, context_props, events_part, store_part.
  destruct (includes permissions "environment"), (includes permissions "events"),
    (includes permissions "store"); heap_step;
    rewrite ?length_app; cbn [length props list_to_map foldr uncurry fst snd];
    rewrite ?Nat.add_succ_r, ?Nat.add_0_r; reflexivity.
Qed.

(** Membership in the permission list, as the builder tests it. *)
Lemma includes_spec permissions name : includes permissions name = true ↔ name ∈ permissions.
Proof. unfold includes. apply bool_decide_eq_true. Qed.

Lemma includes_false permissions name : includes permissions name = false ↔ name ∉ permissions.
Proof. unfold includes. apply bool_decide_eq_false. Qed.

Lemma events_object_fields k :
  is_Some (props events_object !! k) ↔ k ∈ ExecutionEvents_names.
Proof.
  unfold events_object, ExecutionEvents_names. cbn [props].
  rewrite <- elem_of_dom, dom_list_to_map_L. cbn. set_solver.
Qed.

Lemma store_object_fields hasEnvironment k :
  is_Some (props (store_object hasEnvironment) !! k) ↔
    k ∈ ExecutionStore_names ∨
    ((k = "Environment" ∨ k = "Variable") ∧ hasEnvironment = true).
Proof.
  unfold store_object, ExecutionStore_names. cbn [props].
  rewrite <- elem_of_dom. destruct hasEnvironment.
  - rewrite !dom_insert_L, dom_list_to_map_L. cbn. set_solver.
  - rewrite dom_list_to_map_L. cbn. set_solver.
Qed.

Lemma context_props_fields this permissions environment ev st k :
  is_Some (context_props this permissions environment ev st !! k) ↔
    k = "eventsTarget" ∨
    (k = "environment" ∧ "environment" ∈ permissions) ∨
    (k = "Events" ∧ "events" ∈ permissions) ∨
    (k = "Store" ∧ "store" ∈ permissions).
Proof.
  rewrite <- !includes_spec. unfold context_props. rewrite <- elem_of_dom.
  destruct (includes permissions "environment"), (includes permissions "events"),
    (includes permissions "store"); cbv zeta iota;
    rewrite ?dom_insert_L, dom_singleton_L; set_solver.
Qed.


(** ** The pipelines *)

(** *** The host's calls *)

Lemma abort_facts name σ :
  trace (abort name σ) = trace σ ∧
  abortControllers (abort name σ) = delete name (abortControllers σ) ∧
  length (controllers (abort name σ)) = length (controllers σ) ∧
  objects (abort name σ) = objects σ ∧
  requestModules (abort name σ) = requestModules σ ∧
  responseModules (abort name σ) = responseModules σ ∧
  console (abort name σ) = console σ.
Proof.
  unfold abort. destruct (abortControllers σ !! name) eqn:E; cbn.
  - by rewrite length_insert.
  - by rewrite delete_id.
Qed.

Lemma abort_names_app evs1 evs2 :
  abort_names (evs1 ++ evs2) = abort_names evs1 ++ abort_names evs2.
Proof. apply omap_app. Qed.

Lemma abort_names_calls names : abort_names (map AbortCalled names) = names.
Proof. induction names as [|n names IH]; [done | cbn; f_equal; exact IH]. Qed.

Lemma host_only_refl σ : host_only [] σ σ.
Proof. unfold host_only. by rewrite app_nil_r. Qed.

Lemma host_only_trans evs1 evs2 σ1 σ2 σ3 :
  host_only evs1 σ1 σ2 → host_only evs2 σ2 σ3 → host_only (evs1 ++ evs2) σ1 σ3.
Proof.
  intros (T1 & R1 & L1 & Q1 & P1) (T2 & R2 & L2 & Q2 & P2).
  unfold host_only. rewrite T2, T1, R2, R1, abort_names_app, foldl_app, Q2, P2.
  rewrite app_assoc. split_and!; [done | done | lia | done | done].
Qed.

Lemma host_abort_host_only n σ :
  host_only [AbortCalled n] σ (host_abort σ n) ∧
  objects (host_abort σ n) = objects σ ∧
  console (host_abort σ n) = console σ.
Proof.
  unfold host_abort, host_only.
  destruct (abort_facts n (log (AbortCalled n) σ)) as (T & R & L & O & Q & P & C).
  rewrite T, R, L, O, Q, P, C. by split_and!.
Qed.

Lemma interleave_host_only names σ :
  host_only (map AbortCalled names) σ (interleave names σ) ∧
  objects (interleave names σ) = objects σ ∧
  console (interleave names σ) = console σ.
Proof.
  revert σ. induction names as [|n names IH]; intros σ.
  - split; [apply host_only_refl | done].
  - cbn [interleave foldl map]. fold (interleave names (host_abort σ n)).
    destruct (IH (host_abort σ n)) as (H & O & C).
    destruct (host_abort_host_only n σ) as (H' & O' & C').
    split; [|by rewrite O, C].
    change (AbortCalled n :: map AbortCalled names)
      with ([AbortCalled n] ++ map AbortCalled names).
    by eapply host_only_trans.
Qed.

(** *** One module *)

Lemma with_objects_id h σ : objects σ = h → with_objects h σ = σ.
Proof. intros <-. by destruct σ. Qed.

Lemma executeRequestModule_eq host this name info environment c r σ :
  executeRequestModule host this name info environment c r σ =
    let '(context, h) := buildExecutionContext this (permissions info) environment (objects σ) in
    let σ1 := interleave (abort_calls_before host name) (with_objects h σ) in
    module_step name c h (fn info r h context (signal_aborted c σ1)) r σ1.
Proof.
  unfold executeRequestModule, build_context, module_step, await_module, bind, alloc,
    try_catch, the_request, gets, modify, await_edit, throw, ret, read_message.
  destruct (buildExecutionContext _ _ _ _) as [context h]. cbv zeta.
  set (σ1 := interleave (abort_calls_before host name) (with_objects h σ)).
  assert (Ho : objects σ1 = h)
    by (unfold σ1;
        by destruct (interleave_host_only (abort_calls_before host name) (with_objects h σ))
          as (_ & -> & _)).
  rewrite Ho, (with_objects_id h σ1 Ho).
  destruct (fn info r h context _) as [content [aborts [result|e]]]; cbn; [reflexivity|].
  unfold module_error. destruct (message e); reflexivity.
Qed.

Lemma executeResponseModule_eq host this executed response name info environment c r σ :
  executeResponseModule host this executed response name info environment c r σ =
    let '(context, h) := buildExecutionContext this (permissions info) environment (objects σ) in
    let σ1 := interleave (abort_calls_before host name) (with_objects h σ) in
    module_step name c h (fn info r executed response h context (signal_aborted c σ1)) r σ1.
Proof.
  unfold executeResponseModule, build_context, module_step, await_module, bind, alloc,
    try_catch, the_request, gets, modify, await_edit, throw, ret, read_message.
  destruct (buildExecutionContext _ _ _ _) as [context h]. cbv zeta.
  set (σ1 := interleave (abort_calls_before host name) (with_objects h σ)).
  assert (Ho : objects σ1 = h)
    by (unfold σ1;
        by destruct (interleave_host_only (abort_calls_before host name) (with_objects h σ))
          as (_ & -> & _)).
  rewrite Ho, (with_objects_id h σ1 Ho).
  destruct (fn info r executed response h context _) as [content [aborts [result|e]]]; cbn;
    [reflexivity|].
  unfold module_error. destruct (message e); reflexivity.
Qed.

Lemma module_step_host_only name c h call r σ :
  let '(out, r', σ') := module_step name c h call r σ in
  host_only (Invoked name c (request r) :: map AbortCalled (abort_calls (call.2))
               ++ [Settled name (settled (call.2)) (call.1)]) σ σ' ∧
  r' = with_content (call.1) r ∧
  out = match settled (call.2) with
        | Resolved result => Resolved result
        | Rejected e => Rejected (module_error name e)
        end.
Proof.
  unfold module_step.
  set (σ0 := log (Invoked name c (request r)) (with_objects h σ)).
  destruct (interleave_host_only (abort_calls (call.2)) σ0) as (H & _ & _).
  assert (H0 : host_only [Invoked name c (request r)] σ σ0) by (by unfold host_only).
  set (σ1 := interleave (abort_calls (call.2)) σ0) in *.
  set (ev := Settled name (settled (call.2)) (call.1)).
  assert (H1 : host_only [ev] σ1 (log ev σ1)) by (by unfold host_only).
  pose proof (host_only_trans _ _ _ _ _ H0 (host_only_trans _ _ _ _ _ H H1)) as HH.
  destruct (settled (call.2)) as [result|e]; (split; [|done]).
  - exact HH.
  - destruct HH as (T & R & L & Q & P). by unfold host_only.
Qed.

(** The call of a module once its context is built: the host's turn, then
    the module. *)
Lemma module_call_host_only host name c h call r σ :
  let '(out, r', σ') :=
    module_step name c h call r
      (interleave (abort_calls_before host name) (with_objects h σ)) in
  host_only (map AbortCalled (abort_calls_before host name)
               ++ Invoked name c (request r) :: map AbortCalled (abort_calls (call.2))
               ++ [Settled name (settled (call.2)) (call.1)]) σ σ' ∧
  r' = with_content (call.1) r ∧
  out = match settled (call.2) with
        | Resolved result => Resolved result
        | Rejected e => Rejected (module_error name e)
        end.
Proof.
  set (σ0 := interleave (abort_calls_before host name) (with_objects h σ)).
  assert (H0 : host_only (map AbortCalled (abort_calls_before host name)) σ σ0).
  { destruct (interleave_host_only (abort_calls_before host name) (with_objects h σ))
      as (H & _).
    assert (Hw : host_only [] σ (with_objects h σ))
      by (unfold host_only; cbn; by rewrite app_nil_r).
    exact (host_only_trans _ _ _ _ _ Hw H). }
  pose proof (module_step_host_only name c h call r σ0) as Hstep.
  destruct (module_step name c h call r σ0) as [[out r'] σ'].
  destruct Hstep as (H & -> & ->). split; [|done].
  exact (host_only_trans _ _ _ _ _ H0 H).
Qed.

Lemma step_events_app (before aborts : list string) (inv st : event) evs :
  (map AbortCalled before ++ inv :: map AbortCalled aborts ++ [st]) ++ evs
  = map AbortCalled before ++ inv :: map AbortCalled aborts ++ st :: evs.
Proof. rewrite <- app_assoc. cbn [app]. by rewrite <- app_assoc. Qed.

(** *** The loops *)

Lemma run_trace_step c name names content before aborts
    (p : Promise (option ExecutionResponse)) content' :
  match p with
  | Resolved result =>
      if is_ABORT result then
        run_trace c (name :: names) content (Resolved ModuleAborted)
          (map AbortCalled before ++ Invoked name c content :: map AbortCalled aborts
             ++ [Settled name p content'])
          content'
      else True
  | Rejected e =>
      run_trace c (name :: names) content (Rejected (module_error name e))
        (map AbortCalled before ++ Invoked name c content :: map AbortCalled aborts
           ++ [Settled name p content'])
        content'
  end.
Proof.
  destruct p as [result|e].
  - unfold is_ABORT. case_bool_decide as H; [|done]. subst result. apply run_aborted.
  - apply run_thrown.
Qed.

Lemma processRequest_modules_spec host this modules environment c r σ :
  let '(out, r', σ') := processRequest_modules host this modules environment c r σ in
  ∃ evs σ'',
    host_only evs σ σ'' ∧
    σ' = (if decide (out = Resolved Cancelled)
          then with_abortControllers (delete (id r)) σ'' else σ'') ∧
    run_trace c (modules.*1) (request r) out evs (request r') ∧
    id r' = id r.
Proof.
  revert r σ. induction modules as [|[name main] modules IH]; intros r σ.
  - cbn. exists [], σ. (split; [|split; [|split]]); [apply host_only_refl | done | constructor | done].
  - cbn [processRequest_modules fmap list_fmap fst].
    unfold bind at 1. unfold gets at 1.
    destruct (signal_aborted c σ) eqn:Hsig.
    + cbn. exists [], σ. (split; [|split; [|split]]); [apply host_only_refl | done | constructor | done].
    + unfold bind at 1. rewrite executeRequestModule_eq.
      destruct (buildExecutionContext _ _ _ _) as [context h]. cbv zeta.
      set (σ0 := interleave (abort_calls_before host name) (with_objects h σ)).
      set (call := fn main r h context _).
      pose proof (module_call_host_only host name c h call r σ) as Hstep.
      fold σ0 in Hstep.
      pose proof (run_trace_step c name (modules.*1) (request r)
                    (abort_calls_before host name)
                    (abort_calls (call.2)) (settled (call.2)) (call.1)) as Htr.
      destruct (module_step name c h call r σ0) as [[out1 r1] σ1].
      destruct Hstep as (Hh & -> & ->).
      destruct (settled (call.2)) as [result|e].
      * destruct (is_ABORT result) eqn:Hab.
        -- unfold ret, bind, abortControllers_delete, the_request, modify; cbn. eexists _, σ1. (split; [|split; [|split]]); [exact Hh | done | exact Htr | done].
        -- specialize (IH (with_content (call.1) r) σ1).
           destruct (processRequest_modules _ _ _ _ _ _ _) as [[out r'] σ'].
           destruct IH as (evs & σ'' & Hh' & -> & Hrun & Hid).
           eexists _, σ''. (split; [|split; [|split]]).
           ++ eapply host_only_trans; [exact Hh | exact Hh'].
           ++ done.
           ++ rewrite step_events_app.
              constructor; [|exact Hrun].
              intros ->. unfold is_ABORT in Hab. by case_bool_decide.
           ++ done.
      * eexists _, σ1. (split; [|split; [|split]]); [exact Hh | done | exact Htr | done].
Qed.

Lemma processResponse_modules_spec host this executed response modules environment c r σ :
  let '(out, r', σ') :=
    processResponse_modules host this executed response modules environment c r σ in
  ∃ evs σ'',
    host_only evs σ σ'' ∧
    σ' = (if decide (out = Resolved Cancelled ∨ out = Resolved ModuleAborted)
          then with_abortControllers (delete (id r)) σ'' else σ'') ∧
    run_trace c (modules.*1) (request r) out evs (request r') ∧
    id r' = id r.
Proof.
  revert r σ. induction modules as [|[name main] modules IH]; intros r σ.
  - cbn. exists [], σ. (split; [|split; [|split]]); [apply host_only_refl | done | constructor | done].
  - cbn [processResponse_modules fmap list_fmap fst].
    unfold bind at 1. unfold gets at 1.
    destruct (signal_aborted c σ) eqn:Hsig.
    + cbn. exists [], σ. (split; [|split; [|split]]); [apply host_only_refl | done | constructor | done].
    + unfold bind at 1. rewrite executeResponseModule_eq.
      destruct (buildExecutionContext _ _ _ _) as [context h]. cbv zeta.
      set (σ0 := interleave (abort_calls_before host name) (with_objects h σ)).
      set (call := fn main r executed response h context _).
      pose proof (module_call_host_only host name c h call r σ) as Hstep.
      fold σ0 in Hstep.
      pose proof (run_trace_step c name (modules.*1) (request r)
                    (abort_calls_before host name)
                    (abort_calls (call.2)) (settled (call.2)) (call.1)) as Htr.
      destruct (module_step name c h call r σ0) as [[out1 r1] σ1].
      destruct Hstep as (Hh & -> & ->).
      destruct (settled (call.2)) as [result|e].
      * destruct (is_ABORT result) eqn:Hab.
        -- unfold ret, bind, abortControllers_delete, the_request, modify; cbn. eexists _, σ1. (split; [|split; [|split]]); [exact Hh | done | exact Htr | done].
        -- specialize (IH (with_content (call.1) r) σ1).
           destruct (processResponse_modules _ _ _ _ _ _ _ _ _) as [[out r'] σ'].
           destruct IH as (evs & σ'' & Hh' & -> & Hrun & Hid).
           eexists _, σ''. (split; [|split; [|split]]).
           ++ eapply host_only_trans; [exact Hh | exact Hh'].
           ++ done.
           ++ rewrite step_events_app.
              constructor; [|exact Hrun].
              intros ->. unfold is_ABORT in Hab. by case_bool_decide.
           ++ done.
      * eexists _, σ1. (split; [|split; [|split]]); [exact Hh | | exact Htr | done].
        by rewrite decide_False by (intros [?|?]; discriminate).
Qed.

(** *** Reading traces *)

Lemma split_at_settled (calls : list event) x rest pre name p content post :
  Forall is_call calls →
  calls ++ x :: rest = pre ++ Settled name p content :: post →
  (pre = calls ∧ x = Settled name p content ∧ post = rest) ∨
  (∃ pre', rest = pre' ++ Settled name p content :: post).
Proof.
  intros Hcalls Heq. apply app_eq_inv in Heq as [(k & -> & Hk)|(k & -> & Hk)].
  - destruct k as [|y k]; cbn in Hk.
    + left. rewrite app_nil_r. by inversion Hk.
    + inversion Hk; subst. apply Forall_app in Hcalls as [_ Hc].
      by inversion Hc.
  - destruct k as [|y k]; cbn in Hk.
    + left. rewrite app_nil_r. by inversion Hk.
    + right. inversion Hk; subst. by exists k.
Qed.

Lemma abort_calls_are_calls names : Forall is_call (map AbortCalled names).
Proof. induction names; constructor; done. Qed.

Lemma calls_are_calls before name c content aborts :
  Forall is_call (map AbortCalled before ++ Invoked name c content :: map AbortCalled aborts).
Proof.
  apply Forall_app. split; [apply abort_calls_are_calls|].
  constructor; [done | apply abort_calls_are_calls].
Qed.

Lemma step_events_split (before aborts : list string) (inv st : event) evs :
  map AbortCalled before ++ inv :: map AbortCalled aborts ++ st :: evs
  = (map AbortCalled before ++ inv :: map AbortCalled aborts) ++ st :: evs.
Proof. by rewrite <- app_assoc. Qed.

(** A module that returns [ABORT] or throws ends the loop: its settlement is
    the last event, the request is left as that module left it, and the loop
    ends accordingly. *)
Lemma run_trace_halts c names content out evs final :
  run_trace c names content out evs final →
  ∀ pre name p content' post,
    evs = pre ++ Settled name p content' :: post →
    match p with
    | Resolved result =>
        result = Some ABORT → post = [] ∧ final = content' ∧ out = Resolved ModuleAborted
    | Rejected e =>
        post = [] ∧ final = content' ∧ out = Rejected (module_error name e)
    end.
Proof.
  induction 1 as [content|name0 names content
                 |name0 names content before aborts result content1
                  out evs final Hres Hrun IH|name0 names content before aborts content1
                 |name0 names content before aborts e0 content1];
    intros pre name p content' post Heq.
  - by destruct pre.
  - by destruct pre.
  - rewrite step_events_split in Heq.
    apply split_at_settled in Heq as [(_ & Hx & ->)|(pre' & ->)];
      [| |apply calls_are_calls].
    + inversion Hx; subst. intros ->. done.
    + by eapply IH.
  - rewrite step_events_split in Heq.
    apply split_at_settled in Heq as [(_ & Hx & ->)|(pre' & Hnil)];
      [| |apply calls_are_calls].
    + by inversion Hx; subst.
    + by destruct pre'.
  - rewrite step_events_split in Heq.
    apply split_at_settled in Heq as [(_ & Hx & ->)|(pre' & Hnil)];
      [| |apply calls_are_calls].
    + by inversion Hx; subst.
    + by destruct pre'.
Qed.

Lemma invoked_names_calls aborts evs :
  invoked_names (map AbortCalled aborts ++ evs) = invoked_names evs.
Proof. induction aborts; [done | exact IHaborts]. Qed.

Lemma invoked_controllers_calls aborts evs :
  invoked_controllers (map AbortCalled aborts ++ evs) = invoked_controllers evs.
Proof. induction aborts; [done | exact IHaborts]. Qed.

Lemma sequential_calls running aborts evs :
  sequential running (map AbortCalled aborts ++ evs) = sequential running evs.
Proof. induction aborts; [done | exact IHaborts]. Qed.

(** Dispatch follows the order of the list, one module at a time, with the
    loop's own controller. *)
Lemma run_trace_order c names content out evs final :
  run_trace c names content out evs final →
  sequential None evs = true ∧
  invoked_names evs `prefix_of` names ∧
  (out = Resolved Finished → invoked_names evs = names) ∧
  Forall (λ c', c' = c) (invoked_controllers evs).
Proof.
  induction 1 as [content|name0 names content
                 |name0 names content before aborts result content1
                  out evs final Hres Hrun (IH1 & IH2 & IH3 & IH4)
                 |name0 names content before aborts content1
                 |name0 names content before aborts e0 content1].
  - (split; [|split; [|split]]); [done | done | done | constructor].
  - (split; [|split; [|split]]); [done | apply prefix_nil | done | constructor].
  - rewrite sequential_calls, invoked_names_calls, invoked_controllers_calls.
    cbn [sequential invoked_names invoked_controllers omap list_omap].
    fold (invoked_names (map AbortCalled aborts ++ Settled name0 (Resolved result) content1 :: evs)).
    fold (invoked_controllers (map AbortCalled aborts ++ Settled name0 (Resolved result) content1 :: evs)).
    rewrite sequential_calls, invoked_names_calls, invoked_controllers_calls.
    cbn [sequential invoked_names invoked_controllers omap list_omap].
    fold (invoked_names evs). fold (invoked_controllers evs).
    rewrite !bool_decide_eq_true_2 by done. cbn [andb].
    (split; [|split; [|split]]); [done | by apply prefix_cons | | by constructor].
    intros Hout. by rewrite IH3.
  - rewrite sequential_calls, invoked_names_calls, invoked_controllers_calls.
    cbn [sequential invoked_names invoked_controllers omap list_omap].
    fold (invoked_names (map AbortCalled aborts ++ [Settled name0 (Resolved (Some ABORT)) content1])).
    fold (invoked_controllers (map AbortCalled aborts ++ [Settled name0 (Resolved (Some ABORT)) content1])).
    rewrite sequential_calls, invoked_names_calls, invoked_controllers_calls.
    cbn. rewrite !bool_decide_eq_true_2 by done.
    (split; [|split; [|split]]); [done | by apply prefix_cons, prefix_nil | done | by constructor].
  - rewrite sequential_calls, invoked_names_calls, invoked_controllers_calls.
    cbn [sequential invoked_names invoked_controllers omap list_omap].
    fold (invoked_names (map AbortCalled aborts ++ [Settled name0 (Rejected e0) content1])).
    fold (invoked_controllers (map AbortCalled aborts ++ [Settled name0 (Rejected e0) content1])).
    rewrite sequential_calls, invoked_names_calls, invoked_controllers_calls.
    cbn. rewrite !bool_decide_eq_true_2 by done.
    (split; [|split; [|split]]); [done | by apply prefix_cons, prefix_nil | done | by constructor].
Qed.

(** *** The methods *)

Lemma interleave_app names1 names2 σ :
  interleave (names1 ++ names2) σ = interleave names2 (interleave names1 σ).
Proof. apply foldl_app. Qed.

Lemma new_AbortController_host_only σ :
  host_only [] σ (new_AbortController σ).2.
Proof.
  unfold host_only. cbn. rewrite app_nil_r, length_app.
  split_and!; [done|done|lia|done|done].
Qed.

Lemma processRequest_run_spec host this options r σ :
  let c := length (controllers σ) in
  let '(out, r', σ') := processRequest_run host this options r σ in
  id r' = id r ∧
  ∃ names,
    let σ1 := interleave names (new_AbortController σ).2 in
    (∃ e, out = Rejected e ∧ σ' = σ1) ∨
    (∃ r1 environment,
       id r1 = id r ∧
       (out, r', σ') =
         let '(lout, r', σ') :=
           processRequest_modules host this (requestModules σ) environment c r1 σ1 in
         (tag_exit c lout, r', σ')).
Proof.
  intros c. unfold processRequest_run.
  unfold bind, alloc, the_request, await_edit, await, gets, ret.
  cbn [new_AbortController]. fold c.
  set (σ0 := with_controllers (λ cs, cs ++ [false]) σ).
  change ((new_AbortController σ).2) with σ0. cbv zeta.
  set (act := processRequestActions (actions this) r (evaluateVariables options)).
  set (σa := interleave (abort_calls (act.2)) σ0).
  destruct (settled (act.2)) as [[]|e1].
  2:{ split; [done|]. exists (abort_calls (act.2)). left. by exists e1. }
  set (cur := Environment_current host (eventsTarget this)).
  set (σb := interleave (abort_calls cur) σa).
  assert (Hb : σb = interleave (abort_calls (act.2) ++ abort_calls cur) σ0)
    by (by rewrite interleave_app).
  assert (Hmb : requestModules σb = requestModules σ).
  { rewrite Hb. destruct (interleave_host_only (abort_calls (act.2) ++ abort_calls cur) σ0)
      as ((_ & _ & _ & -> & _) & _). done. }
  destruct (settled cur) as [environment|e2].
  2:{ split; [done|]. exists (abort_calls (act.2) ++ abort_calls cur). left.
      exists e2. by rewrite <- Hb. }
  case_bool_decide as Hopt.
  - rewrite Hmb.
    destruct (processRequest_modules host this (requestModules σ) (JsRef environment) c
                (with_content (act.1) r) σb) as [[lout r'] σ'] eqn:Hloop.
    pose proof (processRequest_modules_spec host this (requestModules σ) (JsRef environment) c
                  (with_content (act.1) r) σb) as Hspec.
    rewrite Hloop in Hspec. destruct Hspec as (_ & _ & _ & _ & _ & Hid).
    destruct lout as [exit|e]; cbn.
    all: split; [done|]; exists (abort_calls (act.2) ++ abort_calls cur); right;
      exists (with_content (act.1) r), (JsRef environment); split; [done|];
      by rewrite <- Hb, Hloop.
  - set (ev := VariablesProcessor_evaluateVariables host (jexl this)
                 (js_get environment "variables" (objects σb))
                 (request (with_content (act.1) r))
                 ["url"; "headers"; "method"; "payload"]).
    set (σc := interleave (abort_calls (ev.2)) σb).
    assert (Hc : σc = interleave ((abort_calls (act.2) ++ abort_calls cur)
                                    ++ abort_calls (ev.2)) σ0)
      by (by rewrite interleave_app, <- Hb).
    assert (Hmc : requestModules σc = requestModules σ).
    { rewrite Hc. destruct (interleave_host_only ((abort_calls (act.2) ++ abort_calls cur)
                                    ++ abort_calls (ev.2)) σ0)
        as ((_ & _ & _ & -> & _) & _). done. }
    destruct (settled (ev.2)) as [[]|e3].
    2:{ split; [done|]. eexists. left. exists e3. by rewrite <- Hc. }
    rewrite Hmc.
    destruct (processRequest_modules host this (requestModules σ) (JsRef environment) c
                (with_content (ev.1) (with_content (act.1) r)) σc)
      as [[lout r'] σ'] eqn:Hloop.
    pose proof (processRequest_modules_spec host this (requestModules σ) (JsRef environment) c
                  (with_content (ev.1) (with_content (act.1) r)) σc) as Hspec.
    rewrite Hloop in Hspec. destruct Hspec as (_ & _ & _ & _ & _ & Hid).
    destruct lout as [exit|e]; cbn.
    all: split; [done|]; eexists; right;
      exists (with_content (ev.1) (with_content (act.1) r)), (JsRef environment);
      split; [done|]; by rewrite <- Hc, Hloop.
Qed.

Lemma response_controller_host_only r σ : host_only [] σ (response_controller r σ).2.
Proof.
  unfold response_controller. destruct (abortControllers σ !! id r).
  - apply host_only_refl.
  - apply new_AbortController_host_only.
Qed.

Lemma processResponse_run_spec host this executed response options r σ :
  let c := (response_controller r σ).1 in
  let '(out, r', σ') := processResponse_run host this executed response options r σ in
  id r' = id r ∧
  ∃ names,
    let σ1 := interleave names (response_controller r σ).2 in
    (∃ e, out = Rejected e ∧ σ' = σ1) ∨
    (∃ r1 environment,
       id r1 = id r ∧
       (out, r', σ') =
         let '(lout, r', σ') :=
           processResponse_modules host this executed response (responseModules σ)
             environment c r1 σ1 in
         (tag_exit c lout, r', σ')).
Proof.
  intros c. unfold processResponse_run, get_or_new_AbortController.
  unfold bind at 1. unfold bind at 1. unfold the_request at 1. unfold bind at 1.
  unfold gets at 1.
  assert ((match abortControllers σ !! id r with
           | Some abortController => ret abortController
           | None => alloc new_AbortController
           end) r σ = (Resolved c, r, (response_controller r σ).2)) as ->.
  { unfold c, response_controller. by destruct (abortControllers σ !! id r). }
  set (σ0 := (response_controller r σ).2).
  pose proof (response_controller_host_only r σ) as H0. fold σ0 in H0.
  unfold bind, the_request, await_edit, await, gets, ret. cbv zeta.
  set (act := processResponseActions (actions this) r executed response
                (evaluateVariables options)).
  set (σa := interleave (abort_calls (act.2)) σ0).
  destruct (settled (act.2)) as [[]|e1].
  2:{ split; [done|]. exists (abort_calls (act.2)). left. by exists e1. }
  set (cur := Environment_current host (eventsTarget this)).
  set (σb := interleave (abort_calls cur) σa).
  assert (Hb : σb = interleave (abort_calls (act.2) ++ abort_calls cur) σ0)
    by (by rewrite interleave_app).
  destruct (settled cur) as [environment|e2].
  2:{ split; [done|]. exists (abort_calls (act.2) ++ abort_calls cur). left.
      exists e2. by rewrite <- Hb. }
  assert (Hm : responseModules σa = responseModules σ).
  { unfold σa.
    destruct (interleave_host_only (abort_calls (act.2)) σ0) as ((_ & _ & _ & _ & ->) & _).
    apply H0. }
  rewrite Hm.
  destruct (processResponse_modules host this executed response (responseModules σ)
              (JsRef environment) c (with_content (act.1) r) σb)
    as [[lout r'] σ'] eqn:Hloop.
  pose proof (processResponse_modules_spec host this executed response (responseModules σ)
                (JsRef environment) c (with_content (act.1) r) σb) as Hspec.
  rewrite Hloop in Hspec. destruct Hspec as (_ & _ & _ & _ & _ & Hid).
  destruct lout as [exit|e]; cbn.
  all: split; [done|]; exists (abort_calls (act.2) ++ abort_calls cur); right;
    exists (with_content (act.1) r), (JsRef environment); split; [done|];
    by rewrite <- Hb, Hloop.
Qed.

Lemma processRequest_run_summary host this options r σ :
  let c := length (controllers σ) in
  let '(out, r', σ') := processRequest_run host this options r σ in
  id r' = id r ∧
  ∃ names evs σ'',
    host_only (map AbortCalled names ++ evs) σ σ'' ∧
    σ' = (if decide (out = Resolved (c, Cancelled))
          then with_abortControllers (delete (id r)) σ'' else σ'') ∧
    ((∃ e, out = Rejected e ∧ evs = []) ∨
     (∃ content lout,
        out = tag_exit c lout ∧
        run_trace c ((requestModules σ).*1) content lout evs (request r'))).
Proof.
  intros c. pose proof (processRequest_run_spec host this options r σ) as H.
  cbv zeta in H. fold c in H.
  destruct (processRequest_run host this options r σ) as [[out r'] σ'].
  destruct H as (Hid & names & H). split; [done|].
  pose proof (new_AbortController_host_only σ) as H0.
  destruct (interleave_host_only names (new_AbortController σ).2) as (H1 & _).
  pose proof (host_only_trans _ _ _ _ _ H0 H1) as H01. cbn [app] in H01.
  destruct H as [(e & -> & ->)|(r1 & environment & Hid1 & Heq)].
  - exists names, [], (interleave names (new_AbortController σ).2).
    rewrite app_nil_r. split_and!; [done | done | left; by exists e].
  - pose proof (processRequest_modules_spec host this (requestModules σ) environment c r1
                  (interleave names (new_AbortController σ).2)) as Hspec.
    destruct (processRequest_modules host this (requestModules σ) environment c r1
                (interleave names (new_AbortController σ).2)) as [[lout r2] σ2].
    destruct Hspec as (evs & σ'' & Hh & -> & Hrun & Hid2).
    inversion Heq; subst out r' σ'.
    exists names, evs, σ''. split_and!.
    + by eapply host_only_trans.
    + rewrite Hid1. destruct lout as [[]|]; cbn.
      * by rewrite !decide_True.
      * by rewrite !decide_False.
      * by rewrite !decide_False.
      * by rewrite !decide_False.
    + right. by exists (request r1), lout.
Qed.

Lemma processResponse_run_summary host this executed response options r σ :
  let c := (response_controller r σ).1 in
  let '(out, r', σ') := processResponse_run host this executed response options r σ in
  id r' = id r ∧
  ∃ names evs σ'',
    host_only (map AbortCalled names ++ evs) σ σ'' ∧
    σ' = (if decide (out = Resolved (c, Cancelled) ∨ out = Resolved (c, ModuleAborted))
          then with_abortControllers (delete (id r)) σ'' else σ'') ∧
    ((∃ e, out = Rejected e ∧ evs = []) ∨
     (∃ content lout,
        out = tag_exit c lout ∧
        run_trace c ((responseModules σ).*1) content lout evs (request r'))).
Proof.
  intros c.
  pose proof (processResponse_run_spec host this executed response options r σ) as H.
  cbv zeta in H. fold c in H.
  destruct (processResponse_run host this executed response options r σ) as [[out r'] σ'].
  destruct H as (Hid & names & H). split; [done|].
  pose proof (response_controller_host_only r σ) as H0.
  destruct (interleave_host_only names (response_controller r σ).2) as (H1 & _).
  pose proof (host_only_trans _ _ _ _ _ H0 H1) as H01. cbn [app] in H01.
  destruct H as [(e & -> & ->)|(r1 & environment & Hid1 & Heq)].
  - exists names, [], (interleave names (response_controller r σ).2).
    rewrite app_nil_r. split_and!; [done | | left; by exists e].
    by rewrite decide_False by (intros [?|?]; discriminate).
  - pose proof (processResponse_modules_spec host this executed response (responseModules σ)
                  environment c r1 (interleave names (response_controller r σ).2)) as Hspec.
    destruct (processResponse_modules host this executed response (responseModules σ)
                environment c r1 (interleave names (response_controller r σ).2))
      as [[lout r2] σ2].
    destruct Hspec as (evs & σ'' & Hh & -> & Hrun & Hid2).
    inversion Heq; subst out r' σ'.
    exists names, evs, σ''. split_and!.
    + by eapply host_only_trans.
    + rewrite Hid1. destruct lout as [[]|]; cbn.
      * rewrite !decide_True; [done | by left | by left].
      * rewrite !decide_True; [done | by right | by right].
      * rewrite !decide_False; [done | intros [?|?]; discriminate | intros [?|?]; discriminate].
      * rewrite !decide_False; [done | intros [?|?]; discriminate | intros [?|?]; discriminate].
    + right. by exists (request r1), lout.
Qed.

Lemma processRequest_eq host this options r σ :
  processRequest host this options r σ =
    match processRequest_run host this options r σ with
    | (Resolved (c, Finished), r', σ') =>
        (Resolved (Some r'), r', with_abortControllers (<[id r' := c]>) σ')
    | (Resolved (_, _), r', σ') => (Resolved None, r', σ')
    | (Rejected e, r', σ') => (Rejected e, r', σ')
    end.
Proof.
  unfold processRequest. unfold bind at 1.
  destruct (processRequest_run host this options r σ) as [[[[c []]|e] r'] σ']; reflexivity.
Qed.

Lemma processResponse_eq host this executed response options r σ :
  processResponse host this executed response options r σ =
    match processResponse_run host this executed response options r σ with
    | (Resolved (_, Finished), r', σ') =>
        (Resolved tt, r', with_abortControllers (delete (id r')) σ')
    | (Resolved (_, _), r', σ') => (Resolved tt, r', σ')
    | (Rejected e, r', σ') => (Rejected e, r', σ')
    end.
Proof.
  unfold processResponse. unfold bind at 1.
  destruct (processResponse_run host this executed response options r σ)
    as [[[[c []]|e] r'] σ']; reflexivity.
Qed.

(** *** The fields of a built context *)

Lemma lookup_context_object (h : js_heap) o t : (h ++ o :: t) !! length h = Some o.
Proof. by apply list_lookup_middle. Qed.

Lemma lookup_events_object (h : js_heap) o permissions t :
  includes permissions "events" = true →
  (h ++ o :: events_part permissions ++ t) !! S (length h) = Some events_object.
Proof.
  intros He. unfold events_part. rewrite He.
  rewrite lookup_app_r by lia. by replace (S (length h) - length h) with 1 by lia.
Qed.

Lemma lookup_store_object (h : js_heap) o permissions :
  includes permissions "store" = true →
  (h ++ o :: events_part permissions ++ store_part permissions)
    !! (S (length h) + length (events_part permissions))
  = Some (store_object (includes permissions "environment")).
Proof.
  intros Hs. unfold store_part. rewrite Hs.
  replace (h ++ o :: events_part permissions ++
             [store_object (includes permissions "environment")])
    with ((h ++ o :: events_part permissions) ++
             store_object (includes permissions "environment") :: [])
    by (by rewrite <- app_assoc).
  apply list_lookup_middle. rewrite length_app. cbn [length]. lia.
Qed.

Lemma context_props_lookups this permissions environment ev st :
  context_props this permissions environment ev st !! "eventsTarget"
    = Some (eventsTarget this) ∧
  context_props this permissions environment ev st !! "environment"
    = (if includes permissions "environment" then Some environment else None) ∧
  context_props this permissions environment ev st !! "Events"
    = (if includes permissions "events" then Some (JsRef ev) else None) ∧
  context_props this permissions environment ev st !! "Store"
    = (if includes permissions "store" then Some (JsRef st) else None).
Proof.
  unfold context_props.
  destruct (includes permissions "environment"), (includes permissions "events"),
    (includes permissions "store"); cbv zeta iota; by simplify_map_eq.
Qed.

(** *** What the methods do, by the way their loops end *)

Lemma processRequest_summary host this options r σ :
  let c := length (controllers σ) in
  let '(out, r', σ') := processRequest host this options r σ in
  id r' = id r ∧
  ∃ names evs σ'',
    host_only (map AbortCalled names ++ evs) σ σ'' ∧
    ((∃ e, out = Rejected e ∧ evs = [] ∧ σ' = σ'') ∨
     (∃ content lout,
        run_trace c ((requestModules σ).*1) content lout evs (request r') ∧
        (out, σ') = request_outcome c r' lout σ'')).
Proof.
  intros c. rewrite processRequest_eq.
  pose proof (processRequest_run_summary host this options r σ) as H.
  cbv zeta in H. fold c in H.
  destruct (processRequest_run host this options r σ) as [[out r'] σ'].
  destruct H as (Hid & names & evs & σ'' & Hh & -> & H). 
  destruct H as [(e & -> & ->)|(content & lout & -> & Hrun)].
  - split; [done|]. exists names, [], σ''. split; [done|]. left. exists e.
    by rewrite decide_False.
  - destruct lout as [[]|e]; cbn [tag_exit]; (split; [done|]);
      exists names, evs, σ''; (split; [done|]); right; eexists content, _;
      (split; [exact Hrun|]); cbn [request_outcome]; rewrite ?Hid.
    + by rewrite decide_True.
    + by rewrite decide_False.
    + by rewrite decide_False.
    + by rewrite decide_False.
Qed.

Lemma processResponse_summary host this executed response options r σ :
  let c := (response_controller r σ).1 in
  let '(out, r', σ') := processResponse host this executed response options r σ in
  id r' = id r ∧
  ∃ names evs σ'',
    host_only (map AbortCalled names ++ evs) σ σ'' ∧
    ((∃ e, out = Rejected e ∧ evs = [] ∧ σ' = σ'') ∨
     (∃ content lout,
        run_trace c ((responseModules σ).*1) content lout evs (request r') ∧
        (out, σ') = response_outcome r' lout σ'')).
Proof.
  intros c. rewrite processResponse_eq.
  pose proof (processResponse_run_summary host this executed response options r σ) as H.
  cbv zeta in H. fold c in H.
  destruct (processResponse_run host this executed response options r σ) as [[out r'] σ'].
  destruct H as (Hid & names & evs & σ'' & Hh & -> & H). 
  destruct H as [(e & -> & ->)|(content & lout & -> & Hrun)].
  - split; [done|]. exists names, [], σ''. split; [done|]. left. exists e.
    by rewrite decide_False by (intros [?|?]; discriminate).
  - destruct lout as [[]|e]; cbn [tag_exit]; (split; [done|]);
      exists names, evs, σ''; (split; [done|]); right; eexists content, _;
      (split; [exact Hrun|]); cbn [response_outcome]; rewrite ?Hid.
    + by rewrite decide_True by (by left).
    + by rewrite decide_True by (by right).
    + by rewrite decide_False by (intros [?|?]; discriminate).
    + by rewrite decide_False by (intros [?|?]; discriminate).
Qed.

Lemma request_outcome_frame c r lout σ :
  trace (request_outcome c r lout σ).2 = trace σ ∧
  requestModules (request_outcome c r lout σ).2 = requestModules σ ∧
  responseModules (request_outcome c r lout σ).2 = responseModules σ ∧
  controllers (request_outcome c r lout σ).2 = controllers σ.
Proof. by destruct lout as [[]|]. Qed.

Lemma response_outcome_frame r lout σ :
  trace (response_outcome r lout σ).2 = trace σ ∧
  requestModules (response_outcome r lout σ).2 = requestModules σ ∧
  responseModules (response_outcome r lout σ).2 = responseModules σ ∧
  controllers (response_outcome r lout σ).2 = controllers σ.
Proof. by destruct lout as [[]|]. Qed.

Lemma settled_after_calls (calls : list event) rest pre name p content post :
  Forall is_call calls →
  calls ++ rest = pre ++ Settled name p content :: post →
  ∃ pre', rest = pre' ++ Settled name p content :: post.
Proof.
  intros Hcalls Heq. apply app_eq_inv in Heq as [(k & -> & Hk)|(k & -> & Hk)].
  - destruct k as [|y k]; cbn in Hk.
    + exists []. by rewrite Hk.
    + inversion Hk; subst. apply Forall_app in Hcalls as [_ Hc]. by inversion Hc.
  - by exists k.
Qed.

(** The new events of a call that reached a settlement come from its loop. *)
Lemma processRequest_settled host this options r σ pre name p content post :
  let '(out, r', σ') := processRequest host this options r σ in
  trace σ' = trace σ ++ pre ++ Settled name p content :: post →
  id r' = id r ∧
  ∃ names evs pre' content0 lout σ'',
    host_only (map AbortCalled names ++ evs) σ σ'' ∧
    evs = pre' ++ Settled name p content :: post ∧
    run_trace (length (controllers σ)) ((requestModules σ).*1) content0 lout evs
      (request r') ∧
    (out, σ') = request_outcome (length (controllers σ)) r' lout σ''.
Proof.
  pose proof (processRequest_summary host this options r σ) as H. cbv zeta in H.
  destruct (processRequest host this options r σ) as [[out r'] σ'].
  destruct H as (Hid & names & evs & σ'' & Hh & H). intros Htr. split; [done|].
  assert (Htr' : trace σ' = trace σ'').
  { destruct H as [(e & _ & _ & ->)|(content0 & lout & _ & Heq)]; [done|].
    pose proof (request_outcome_frame (length (controllers σ)) r' lout σ'') as (T & _).
    by rewrite <- Heq in T. }
  destruct Hh as (T & Hrest). rewrite Htr', T in Htr. apply app_inv_head in Htr.
  apply settled_after_calls in Htr as (pre' & Hevs); [|apply abort_calls_are_calls].
  destruct H as [(e & _ & -> & _)|(content0 & lout & Hrun & Heq)]; [by destruct pre'|].
  exists names, evs, pre', content0, lout, σ''. split_and!; try done.
Qed.

Lemma processResponse_settled host this executed response options r σ pre name p content
    post :
  let '(out, r', σ') := processResponse host this executed response options r σ in
  trace σ' = trace σ ++ pre ++ Settled name p content :: post →
  id r' = id r ∧
  ∃ names evs pre' content0 lout σ'',
    host_only (map AbortCalled names ++ evs) σ σ'' ∧
    evs = pre' ++ Settled name p content :: post ∧
    run_trace (response_controller r σ).1 ((responseModules σ).*1) content0 lout evs
      (request r') ∧
    (out, σ') = response_outcome r' lout σ''.
Proof.
  pose proof (processResponse_summary host this executed response options r σ) as H.
  cbv zeta in H.
  destruct (processResponse host this executed response options r σ) as [[out r'] σ'].
  destruct H as (Hid & names & evs & σ'' & Hh & H). intros Htr. split; [done|].
  assert (Htr' : trace σ' = trace σ'').
  { destruct H as [(e & _ & _ & ->)|(content0 & lout & _ & Heq)]; [done|].
    pose proof (response_outcome_frame r' lout σ'') as (T & _).
    by rewrite <- Heq in T. }
  destruct Hh as (T & Hrest). rewrite Htr', T in Htr. apply app_inv_head in Htr.
  apply settled_after_calls in Htr as (pre' & Hevs); [|apply abort_calls_are_calls].
  destruct H as [(e & _ & -> & _)|(content0 & lout & Hrun & Heq)]; [by destruct pre'|].
  exists names, evs, pre', content0, lout, σ''. split_and!; try done.
Qed.

(** *** The message of a module's error *)

Lemma append_cons a s t : String a s +:+ t = String a (s +:+ t).
Proof. reflexivity. Qed.

Lemma append_nil_r s : s +:+ "" = s.
Proof. induction s as [|a s IH]; [done|]. by rewrite append_cons, IH. Qed.

Lemma append_assoc s t u : (s +:+ t) +:+ u = s +:+ t +:+ u.
Proof. induction s as [|a s IH]; [done|]. by rewrite !append_cons, IH. Qed.

Lemma module_error_message name e m :
  message e = inr (Some m) →
  module_error name e
    = Error ("Request module " +:+ name +:+ " reported error: " +:+ m) ∧
  occurs_in name ("Request module " +:+ name +:+ " reported error: " +:+ m) ∧
  occurs_in m ("Request module " +:+ name +:+ " reported error: " +:+ m).
Proof.
  intros He. unfold module_error. rewrite He. split; [done|]. split.
  - by exists "Request module ", (" reported error: " +:+ m).
  - exists ("Request module " +:+ name +:+ " reported error: "), "".
    by rewrite append_nil_r, !append_assoc.
Qed.


(** The test for an occurrence is sound. *)
Lemma prefix_append needle after : String.prefix needle (needle +:+ after) = true.
Proof.
  induction needle as [|a needle IH]; [by destruct after|].
  rewrite append_cons. cbn [String.prefix]. by destruct (Ascii.ascii_dec a a).
Qed.

Lemma contains_occurs needle text : occurs_in needle text → contains needle text = true.
Proof.
  intros (before & after & ->). induction before as [|a before IH].
  - change ("" +:+ needle +:+ after) with (needle +:+ after).
    destruct (needle +:+ after) eqn:E; cbn [contains]; rewrite <- E, prefix_append; done.
  - rewrite append_cons. cbn [contains]. rewrite IH. apply orb_true_r.
Qed.

(** *** A controller out of the map's reach *)

Lemma abort_out_of_reach c name σ : out_of_reach c σ → out_of_reach c (abort name σ).
Proof.
  intros [Hc Hreg]. unfold abort.
  destruct (abortControllers σ !! name) as [c'|] eqn:E; [|done].
  split; cbn.
  - rewrite list_lookup_insert_ne; [done|]. by apply (Hreg name).
  - intros n c'' Hl. apply lookup_delete_Some in Hl as [_ Hl]. by apply (Hreg n).
Qed.

Lemma interleave_out_of_reach c names σ :
  out_of_reach c σ → out_of_reach c (interleave names σ).
Proof.
  revert σ. induction names as [|n names IH]; intros σ H; [done|].
  cbn [interleave foldl]. apply IH. unfold host_abort. by apply abort_out_of_reach.
Qed.

Lemma module_step_out_of_reach c name c' h call r σ :
  out_of_reach c σ → out_of_reach c (module_step name c' h call r σ).2.
Proof.
  intros H. unfold module_step.
  assert (H1 : out_of_reach c (interleave (abort_calls (call.2))
                 (log (Invoked name c' (request r)) (with_objects h σ))))
    by (by apply interleave_out_of_reach).
  by destruct (settled (call.2)).
Qed.

Lemma processRequest_modules_out_of_reach host this modules environment c r σ :
  out_of_reach c σ →
  let '(out, r', σ') := processRequest_modules host this modules environment c r σ in
  out ≠ Resolved Cancelled ∧ out_of_reach c σ'.
Proof.
  revert r σ. induction modules as [|[name main] modules IH]; intros r σ H.
  - by cbn.
  - cbn [processRequest_modules]. unfold bind at 1. unfold gets at 1.
    assert (Hsig : signal_aborted c σ = false).
    { unfold signal_aborted. destruct H as [-> _]. done. }
    rewrite Hsig. unfold bind at 1. rewrite executeRequestModule_eq.
    destruct (buildExecutionContext _ _ _ _) as [context h]. cbv zeta.
    set (σ0 := interleave (abort_calls_before host name) (with_objects h σ)).
    assert (H0 : out_of_reach c σ0) by (by apply interleave_out_of_reach).
    set (call := fn main r h context _).
    pose proof (module_step_out_of_reach c name c h call r σ0 H0) as H1.
    pose proof (module_step_host_only name c h call r σ0) as H2.
    destruct (module_step name c h call r σ0) as [[out1 r1] σ1].
    destruct H2 as (_ & -> & ->).
    destruct (settled (call.2)) as [result|e]; [|done].
    destruct (is_ABORT result); [done|]. by apply IH.
Qed.

Lemma new_AbortController_out_of_reach σ :
  registry_wf σ → out_of_reach (length (controllers σ)) (new_AbortController σ).2.
Proof.
  intros Hwf. split; cbn.
  - by apply list_lookup_middle.
  - intros name c' Hl Heq. apply Hwf in Hl. cbn in Hl. lia.
Qed.

(** *** Order of dispatch *)

Lemma order_of_run (c : loc) names evs content lout final (modules : list string) :
  run_trace c modules content lout evs final →
  sequential None (map AbortCalled names ++ evs) = true ∧
  invoked_names (map AbortCalled names ++ evs) `prefix_of` modules ∧
  (lout = Resolved Finished → invoked_names (map AbortCalled names ++ evs) = modules) ∧
  Forall (λ c', c' = c) (invoked_controllers (map AbortCalled names ++ evs)).
Proof.
  intros Hrun. rewrite sequential_calls, invoked_names_calls, invoked_controllers_calls.
  by apply run_trace_order in Hrun.
Qed.

Lemma order_of_prelude names :
  sequential None (map AbortCalled names ++ []) = true ∧
  invoked_names (map AbortCalled names ++ []) = [] ∧
  invoked_controllers (map AbortCalled names ++ []) = [].
Proof. by rewrite sequential_calls, invoked_names_calls, invoked_controllers_calls. Qed.

(** *** The map after a run *)

Lemma response_controller_default r σ :
  (response_controller r σ).1
    = default (length (controllers σ)) (abortControllers σ !! id r).
Proof. unfold response_controller. by destruct (abortControllers σ !! id r). Qed.

Lemma lookup_foldl_delete (m : gmap string loc) names n c :
  foldl (λ m name, delete name m) m names !! n = Some c → m !! n = Some c.
Proof.
  revert m. induction names as [|name names IH]; intros m H; [done|].
  cbn in H. apply IH in H. by apply lookup_delete_Some in H as [_ H].
Qed.

(** X9. When [processResponse] resolves, no controller is left in the map
    under the request's id: each of its three [return]s is preceded by the
    [delete]. *)
Lemma processResponse_resolved_ends_token host this executed response options r σ :
  (processResponse host this executed response options r σ).1.1 = Resolved tt →
  abortControllers (processResponse host this executed response options r σ).2 !! id r
    = None.
Proof.
  pose proof (processResponse_summary host this executed response options r σ) as H.
  cbv zeta in H.
  destruct (processResponse host this executed response options r σ) as [[out r'] σ'].
  cbn [fst snd]. intros ->.
  destruct H as (Hid & names & evs & σ'' & _ & [(e & ? & _)|(content & lout & _ & Heq)]);
    [done|].
  destruct lout as [exit|]; cbn in Heq; inversion Heq; subst.
  cbn. rewrite Hid. apply lookup_delete_eq.
Qed.

(** *** The map holds created controllers only *)

Lemma constructor_wf requests responses h : registry_wf (constructor requests responses h).
Proof. apply map_Forall_empty. Qed.

Lemma host_only_wf evs σ σ' : host_only evs σ σ' → registry_wf σ → registry_wf σ'.
Proof.
  intros (_ & R & L & _) Hwf name c Hl. rewrite R in Hl.
  apply lookup_foldl_delete in Hl. apply Hwf in Hl. cbn in *. lia.
Qed.

Lemma abort_wf name σ : registry_wf σ → registry_wf (abort name σ).
Proof.
  intros Hwf n c Hl. destruct (abort_facts name σ) as (_ & R & L & _).
  rewrite R in Hl. apply lookup_delete_Some in Hl as [_ Hl]. apply Hwf in Hl.
  cbn in *. lia.
Qed.

Lemma delete_wf name σ : registry_wf σ → registry_wf (with_abortControllers (delete name) σ).
Proof.
  intros Hwf n c Hl. cbn in Hl. apply lookup_delete_Some in Hl as [_ Hl].
  by apply Hwf in Hl.
Qed.

Lemma processRequest_wf host this options r σ :
  registry_wf σ → registry_wf (processRequest host this options r σ).2.
Proof.
  intros Hwf. rewrite processRequest_eq.
  pose proof (processRequest_run_spec host this options r σ) as H. cbv zeta in H.
  destruct (processRequest_run host this options r σ) as [[out r'] σ'].
  destruct H as (Hid & names & H).
  pose proof (host_only_wf _ _ _ (new_AbortController_host_only σ) Hwf) as Hwf0.
  destruct (interleave_host_only names (new_AbortController σ).2) as (H1 & _).
  pose proof (host_only_wf _ _ _ H1 Hwf0) as Hwf1.
  destruct H as [(e & -> & ->)|(r1 & environment & Hid1 & Heq)]; [done|].
  pose proof (processRequest_modules_spec host this (requestModules σ) environment
                (length (controllers σ)) r1
                (interleave names (new_AbortController σ).2)) as Hspec.
  destruct (processRequest_modules _ _ _ _ _ _ _) as [[lout r2] σ2].
  destruct Hspec as (evs & σ'' & Hh & -> & _ & _).
  pose proof (host_only_wf _ _ _ Hh Hwf1) as Hwf2.
  inversion Heq; subst out r' σ'.
  destruct lout as [[]|e]; cbn [tag_exit snd].
  - rewrite decide_True by done. by apply delete_wf.
  - by rewrite decide_False.
  - rewrite decide_False by done. intros n c Hl. cbn in Hl.
    apply lookup_insert_Some in Hl as [[_ <-]|[_ Hl]]; [|by apply Hwf2 in Hl].
    destruct H1 as (_ & _ & L1 & _), Hh as (_ & _ & L2 & _).
    cbn in L1, L2 |- *. rewrite length_app in L1. cbn in L1. lia.
  - by rewrite decide_False.
Qed.

Lemma processResponse_wf host this executed response options r σ :
  registry_wf σ →
  registry_wf (processResponse host this executed response options r σ).2.
Proof.
  intros Hwf.
  pose proof (processResponse_summary host this executed response options r σ) as H.
  cbv zeta in H.
  destruct (processResponse host this executed response options r σ) as [[out r'] σ'].
  destruct H as (Hid & names & evs & σ'' & Hh & H). cbn [snd].
  pose proof (host_only_wf _ _ _ Hh Hwf) as Hwf2.
  destruct H as [(e & _ & _ & ->)|(content & lout & _ & Heq)]; [done|].
  destruct lout as [exit|e]; cbn in Heq; inversion Heq; subst; [|done].
  by apply delete_wf.
Qed.

(** *** The last event of a loop *)

Lemma run_trace_last c names content out evs final :
  run_trace c names content out evs final →
  match out with
  | Resolved ModuleAborted =>
      ∃ pre name content', evs = pre ++ [Settled name (Resolved (Some ABORT)) content']
  | Rejected e' =>
      ∃ pre name e content',
        evs = pre ++ [Settled name (Rejected e) content'] ∧ e' = module_error name e
  | _ => True
  end.
Proof.
  induction 1 as [content|name0 names content
                 |name0 names content before aborts result content1
                  out evs final Hres Hrun IH
                 |name0 names content before aborts content1
                 |name0 names content before aborts e0 content1].
  - done.
  - done.
  - destruct out as [[]|e']; try done.
    + destruct IH as (pre & name & content' & ->).
      exists (map AbortCalled before ++ Invoked name0 c content :: map AbortCalled aborts
                ++ Settled name0 (Resolved result) content1 :: pre), name, content'.
      rewrite <- !app_assoc. cbn [app]. by rewrite <- !app_assoc.
    + destruct IH as (pre & name & e & content' & -> & ->).
      exists (map AbortCalled before ++ Invoked name0 c content :: map AbortCalled aborts
                ++ Settled name0 (Resolved result) content1 :: pre), name, e, content'.
      rewrite <- !app_assoc. cbn [app]. by rewrite <- !app_assoc.
  - exists (map AbortCalled before ++ Invoked name0 c content :: map AbortCalled aborts),
      name0, content1. by rewrite <- app_assoc.
  - exists (map AbortCalled before ++ Invoked name0 c content :: map AbortCalled aborts),
      name0, e0, content1. by rewrite <- app_assoc.
Qed.

(** *** Where a rejection comes from *)






(** *** How a loop is left *)













(** * The claims *)

(** C1. The specification has [abort(request.id)] stop [processRequest]: called
    before any module runs, the call resolves to [null] and no module is
    invoked; called once module 1 of 3 has started, modules 2 and 3 are not
    invoked. The code does not do this. Below, the host calls [abort("r1")]
    while the request actions are pending (first run), while the first of
    three modules runs (second run), and while the request actions are pending
    with a controller of an earlier run held by the map under "r1" (third
    run): each time all three modules are invoked, in order, and the call
    resolves to the request, which carries the edits of all three. In the
    third run the controller that [abort] reaches is the earlier one, not the
    one the running pipeline reads. *)
Theorem abort_does_not_stop_processRequest :
  (let σ := sample_state [] (Resolved None) (Resolved None) in
   let '(out, r', σ') :=
     processRequest sample_host (sample_this ["r1"]) default_options sample_request σ in
   trace σ' !! 0 = Some (AbortCalled "r1") ∧
   invoked_names (trace σ') = ["m1"; "m2"; "m3"] ∧
   out = Resolved (Some r') ∧ headers (request r') = "abc") ∧
  (let σ := sample_state ["r1"] (Resolved None) (Resolved None) in
   let '(out, r', σ') :=
     processRequest sample_host (sample_this []) default_options sample_request σ in
   abort_names (take 3 (trace σ')) = ["r1"] ∧
   invoked_names (take 3 (trace σ')) = ["m1"] ∧
   invoked_names (trace σ') = ["m1"; "m2"; "m3"] ∧
   out = Resolved (Some r') ∧ headers (request r') = "abc") ∧
  (let σ := sent_state (Resolved None) in
   let '(out, r', σ') :=
     processRequest sample_host (sample_this ["r1"]) default_options sent_request σ in
   abortControllers σ !! "r1" = Some 0 ∧
   trace σ' !! length (trace σ) = Some (AbortCalled "r1") ∧
   invoked_names (new_events σ σ') = ["m1"; "m2"; "m3"] ∧
   invoked_controllers (new_events σ σ') = [1; 1; 1] ∧
   controllers σ' = [true; false] ∧
   out = Resolved (Some r')).
Proof. split_and!; by vm_compute. Qed.

(** C2. The context built for a permission list has exactly the fields the
    list implies: [eventsTarget] always; [environment] (the environment handed
    in) iff "environment" is listed; [Events] (a bundle with the nine event
    helpers) iff "events" is listed; [Store] (a bundle with the nine store
    helpers) iff "store" is listed, with [Environment] and [Variable] in it
    iff "environment" is listed too. With no permission the context has
    [eventsTarget] and nothing else. *)
Theorem buildExecutionContext_fields this permissions environment (h : js_heap) :
  let '(context, h') := buildExecutionContext this permissions environment h in
  ∃ ctx,
    h' !! context = Some ctx ∧
    (∀ k, is_Some (props ctx !! k) ↔
            k = "eventsTarget" ∨
            (k = "environment" ∧ "environment" ∈ permissions) ∨
            (k = "Events" ∧ "events" ∈ permissions) ∨
            (k = "Store" ∧ "store" ∈ permissions)) ∧
    props ctx !! "eventsTarget" = Some (eventsTarget this) ∧
    ("environment" ∈ permissions → props ctx !! "environment" = Some environment) ∧
    ("events" ∈ permissions →
       ∃ events bundle,
         props ctx !! "Events" = Some (JsRef events) ∧ h' !! events = Some bundle ∧
         ∀ k, is_Some (props bundle !! k) ↔ k ∈ ExecutionEvents_names) ∧
    ("store" ∈ permissions →
       ∃ store bundle,
         props ctx !! "Store" = Some (JsRef store) ∧ h' !! store = Some bundle ∧
         ∀ k, is_Some (props bundle !! k) ↔
                k ∈ ExecutionStore_names ∨
                ((k = "Environment" ∨ k = "Variable") ∧ "environment" ∈ permissions)) ∧
    (permissions = [] → ∀ k, is_Some (props ctx !! k) ↔ k = "eventsTarget").
Proof.
  rewrite buildExecutionContext_eq.
  eexists. split; [apply lookup_context_object|]. cbn [props].
  pose proof (context_props_lookups this permissions environment (S (length h))
                (S (length h) + length (events_part permissions)))
    as (Ht & He & Hev & Hst).
  split; [apply context_props_fields|].
  split; [exact Ht|].
  split; [intros Hin; apply includes_spec in Hin; by rewrite He, Hin|].
  split; [|split].
  - intros Hin. apply includes_spec in Hin. eexists _, _.
    split; [by rewrite Hev, Hin|].
    split; [by apply lookup_events_object|]. apply events_object_fields.
  - intros Hin. apply includes_spec in Hin. eexists _, _.
    split; [by rewrite Hst, Hin|].
    split; [by apply lookup_store_object|].
    intros k. rewrite store_object_fields. by rewrite includes_spec.
  - intros -> k. rewrite context_props_fields. set_solver.
Qed.

(** C3. If, during a call, a module's promise resolves to [ABORT], nothing
    follows it in the trace of that call (no further module is invoked) and
    the call does not reject: [processRequest] resolves to [null],
    [processResponse] resolves to [undefined]. *)
Theorem ABORT_signal_halts_pipeline host this executed response options r σ pre name
    content post :
  (trace (processRequest host this options r σ).2
     = trace σ ++ pre ++ Settled name (Resolved (Some ABORT)) content :: post →
   post = [] ∧ (processRequest host this options r σ).1.1 = Resolved None) ∧
  (trace (processResponse host this executed response options r σ).2
     = trace σ ++ pre ++ Settled name (Resolved (Some ABORT)) content :: post →
   post = [] ∧
   (processResponse host this executed response options r σ).1.1 = Resolved tt).
Proof.
  split.
  - pose proof (processRequest_settled host this options r σ pre name
                  (Resolved (Some ABORT)) content post) as H.
    destruct (processRequest host this options r σ) as [[out r'] σ']. cbn [fst snd].
    intros Htr. destruct (H Htr) as (_ & names & evs & pre' & content0 & lout & σ'' &
                                      _ & Hevs & Hrun & Heq).
    destruct (run_trace_halts _ _ _ _ _ _ Hrun _ _ _ _ _ Hevs eq_refl) as (-> & _ & ->).
    by inversion Heq.
  - pose proof (processResponse_settled host this executed response options r σ pre name
                  (Resolved (Some ABORT)) content post) as H.
    destruct (processResponse host this executed response options r σ) as [[out r'] σ'].
    cbn [fst snd].
    intros Htr. destruct (H Htr) as (_ & names & evs & pre' & content0 & lout & σ'' &
                                      _ & Hevs & Hrun & Heq).
    destruct (run_trace_halts _ _ _ _ _ _ Hrun _ _ _ _ _ Hevs eq_refl) as (-> & _ & ->).
    by inversion Heq.
Qed.

(** C3, at a run of each pipeline in which a module returns [ABORT]. *)
Lemma ABORT_signal_halts_pipeline_witness :
  (processRequest sample_host (sample_this []) default_options sample_request
     (sample_state ["r1"] (Resolved (Some ABORT)) (Resolved None))).1.1 = Resolved None ∧
  (processResponse sample_host (sample_this []) sample_executed sample_response
     default_options sent_request (sent_state (Resolved (Some ABORT)))).1.1 = Resolved tt.
Proof.
  split.
  - pose proof (ABORT_signal_halts_pipeline sample_host (sample_this [])
      sample_executed sample_response default_options sample_request
      (sample_state ["r1"] (Resolved (Some ABORT)) (Resolved None))
      [Invoked "m1" 0 (edited ""); AbortCalled "r1"; Settled "m1" (Resolved None) (edited "a");
       Invoked "m2" 0 (edited "a")]
      "m2" (edited "ab") []) as [H _].
    refine (proj2 (H _)). vm_compute. reflexivity.
  - pose proof (ABORT_signal_halts_pipeline sample_host (sample_this [])
      sample_executed sample_response default_options sent_request
      (sent_state (Resolved (Some ABORT)))
      [Invoked "p1" 0 (edited "abc")]
      "p1" (edited "abcx") []) as [_ H].
    refine (proj2 (H _)). vm_compute. reflexivity.
Defined.

(** C4, as it stands, fails: what a module throws, or rejects with, need not
    be an error with a message. Below, the second of three request modules
    rejects with [null]: the [catch] block of its call throws on reading
    [e.message], and the call rejects with that [TypeError], in whose message
    the module's id does not occur. The same with a response module that
    rejects with [undefined]. And when the second request module throws the
    string "boom", the call rejects with "Request module m2 reported error:
    undefined", in which "boom" does not occur. *)
Lemma module_fault_of_any_value :
  (let σ := sample_state [] (Rejected ThrownNull) (Resolved None) in
   let '(out, r', σ') :=
     processRequest sample_host (sample_this []) default_options sample_request σ in
   last (trace σ') = Some (Settled "m2" (Rejected ThrownNull) (edited "ab")) ∧
   out = Rejected (TypeError "Cannot read properties of null (reading 'message')") ∧
   ¬ occurs_in "m2" "Cannot read properties of null (reading 'message')") ∧
  (let σ := sent_state (Rejected ThrownUndefined) in
   let '(out, r', σ') :=
     processResponse sample_host (sample_this []) sample_executed sample_response
       default_options sent_request σ in
   last (trace σ') = Some (Settled "p1" (Rejected ThrownUndefined) (edited "abcx")) ∧
   out = Rejected (TypeError "Cannot read properties of undefined (reading 'message')") ∧
   ¬ occurs_in "p1" "Cannot read properties of undefined (reading 'message')") ∧
  (let σ := sample_state [] (Rejected (ThrownString "boom")) (Resolved None) in
   let '(out, r', σ') :=
     processRequest sample_host (sample_this []) default_options sample_request σ in
   last (trace σ') = Some (Settled "m2" (Rejected (ThrownString "boom")) (edited "ab")) ∧
   out = Rejected (Error "Request module m2 reported error: undefined") ∧
   ¬ occurs_in "boom" "Request module m2 reported error: undefined").
Proof.
  split; [|split].
  all: vm_compute processRequest; vm_compute processResponse.
  all: split; [by vm_compute|]; split; [by vm_compute|].
  all: intros H; apply contains_occurs in H; by vm_compute in H.
Qed.

(** C4, amended. If, during a call, module [name] throws [e], nothing follows
    in the trace of that call (no further module runs) and the call rejects,
    with what the [catch] block of the module's call throws; the request
    object is left with the content it had when the module's promise
    settled: what the modules did to it stays. When [e] is
    an error with a message, the call rejects with an error whose message is
    "Request module <name> reported error: <message of e>", which contains
    the module's id and the original message. This holds for both
    pipelines. *)
Theorem module_fault_rejects host this executed response options r σ pre name e content
    post :
  (∀ m, message e = inr (Some m) →
        module_error name e
          = Error ("Request module " +:+ name +:+ " reported error: " +:+ m) ∧
        occurs_in name ("Request module " +:+ name +:+ " reported error: " +:+ m) ∧
        occurs_in m ("Request module " +:+ name +:+ " reported error: " +:+ m)) ∧
  (trace (processRequest host this options r σ).2
     = trace σ ++ pre ++ Settled name (Rejected e) content :: post →
   post = [] ∧
   (processRequest host this options r σ).1.1 = Rejected (module_error name e) ∧
   request (processRequest host this options r σ).1.2 = content) ∧
  (trace (processResponse host this executed response options r σ).2
     = trace σ ++ pre ++ Settled name (Rejected e) content :: post →
   post = [] ∧
   (processResponse host this executed response options r σ).1.1
     = Rejected (module_error name e) ∧
   request (processResponse host this executed response options r σ).1.2 = content).
Proof.
  split; [intros m; apply module_error_message|]. split.
  - pose proof (processRequest_settled host this options r σ pre name
                  (Rejected e) content post) as H.
    destruct (processRequest host this options r σ) as [[out r'] σ']. cbn [fst snd].
    intros Htr. destruct (H Htr) as (Hid & names & evs & pre' & content0 & lout & σ'' &
                                      _ & Hevs & Hrun & Heq).
    destruct (run_trace_halts _ _ _ _ _ _ Hrun _ _ _ _ _ Hevs) as (-> & -> & ->).
    by inversion Heq.
  - pose proof (processResponse_settled host this executed response options r σ pre name
                  (Rejected e) content post) as H.
    destruct (processResponse host this executed response options r σ) as [[out r'] σ'].
    cbn [fst snd].
    intros Htr. destruct (H Htr) as (Hid & names & evs & pre' & content0 & lout & σ'' &
                                      _ & Hevs & Hrun & Heq).
    destruct (run_trace_halts _ _ _ _ _ _ Hrun _ _ _ _ _ Hevs) as (-> & -> & ->).
    by inversion Heq.
Qed.

(** C4, at a run of each pipeline in which a module throws after an earlier
    module edited the request. *)
Lemma module_fault_rejects_witness :
  ((processRequest sample_host (sample_this []) default_options sample_request
      (sample_state [] (Rejected (Error "boom")) (Resolved None))).1.1
     = Rejected (module_error "m2" (Error "boom")) ∧
   request (processRequest sample_host (sample_this []) default_options sample_request
              (sample_state [] (Rejected (Error "boom")) (Resolved None))).1.2
     = edited "ab") ∧
  ((processResponse sample_host (sample_this []) sample_executed sample_response
      default_options sent_request (sent_state (Rejected (Error "boom")))).1.1
     = Rejected (module_error "p1" (Error "boom")) ∧
   request (processResponse sample_host (sample_this []) sample_executed sample_response
              default_options sent_request (sent_state (Rejected (Error "boom")))).1.2
     = edited "abcx").
Proof.
  split.
  - pose proof (module_fault_rejects sample_host (sample_this [])
      sample_executed sample_response default_options sample_request
      (sample_state [] (Rejected (Error "boom")) (Resolved None))
      [Invoked "m1" 0 (edited ""); Settled "m1" (Resolved None) (edited "a");
       Invoked "m2" 0 (edited "a")]
      "m2" (Error "boom") (edited "ab") []) as (_ & H & _).
    destruct H as (_ & Hout & Hreq); [vm_compute; reflexivity|].
    exact (conj Hout Hreq).
  - pose proof (module_fault_rejects sample_host (sample_this [])
      sample_executed sample_response default_options sent_request
      (sent_state (Rejected (Error "boom")))
      [Invoked "p1" 0 (edited "abc")]
      "p1" (Error "boom") (edited "abcx") []) as (_ & _ & H).
    destruct H as (_ & Hout & Hreq); [vm_compute; reflexivity|].
    exact (conj Hout Hreq).
Defined.

(** C5. The specification has every [processResponse] call end the life of
    the request's controller, also when a module throws. The code removes the
    controller at each [return] of [processResponse] but not on the way out
    through a rejection: below, the map holds the controller of the request
    after a [processRequest], the first response module throws, the call
    rejects, and the map still holds the controller under "r1". (When the
    call resolves the controller is gone: [processResponse_resolved_ends_token].) *)
Theorem processResponse_fault_keeps_token :
  let σ := sent_state (Rejected (Error "boom")) in
  let '(out, r', σ') :=
    processResponse sample_host (sample_this []) sample_executed sample_response
      default_options sent_request σ in
  abortControllers σ !! "r1" = Some 0 ∧
  invoked_names (new_events σ σ') = ["p1"] ∧
  out = Rejected (Error "Request module p1 reported error: boom") ∧
  abortControllers σ' !! "r1" = Some 0.
Proof. by vm_compute. Qed.

(** C6, as it stands, fails: with a live controller 0 held by the map under
    the request's id, [processRequest] runs its three modules with the new
    controller 1 and then puts controller 1 in the map under that id. *)
Lemma processRequest_does_not_reuse_token :
  let σ := sent_state (Resolved None) in
  let '(out, r', σ') :=
    processRequest sample_host (sample_this []) default_options sent_request σ in
  abortControllers σ !! id sent_request = Some 0 ∧
  signal_aborted 0 σ = false ∧
  invoked_controllers (new_events σ σ') = [1; 1; 1] ∧
  controllers σ' = [false; false] ∧
  abortControllers σ' !! id sent_request = Some 1.
Proof. by vm_compute. Qed.

(** C6, amended. [processRequest] always runs its modules with a controller
    it creates (one that did not exist before the call), whatever the map
    holds, and a call that resolves to the request leaves that controller in
    the map under the request's id. [processResponse] runs its modules with
    the controller the map holds under the request's id when there is one,
    and with a controller it creates otherwise. *)
Theorem controller_of_a_run host this executed response options r σ :
  (let '(out, r', σ') := processRequest host this options r σ in
   ∃ evs,
     trace σ' = trace σ ++ evs ∧
     Forall (λ c, c = length (controllers σ)) (invoked_controllers evs) ∧
     controllers σ !! length (controllers σ) = None ∧
     (∀ r'', out = Resolved (Some r'') →
             abortControllers σ' !! id r = Some (length (controllers σ)))) ∧
  (let '(out, r', σ') := processResponse host this executed response options r σ in
   ∃ evs,
     trace σ' = trace σ ++ evs ∧
     Forall (λ c, c = default (length (controllers σ)) (abortControllers σ !! id r))
       (invoked_controllers evs)).
Proof.
  split.
  - pose proof (processRequest_summary host this options r σ) as H. cbv zeta in H.
    destruct (processRequest host this options r σ) as [[out r'] σ'].
    destruct H as (Hid & names & evs & σ'' & (T & _) & H).
    exists (map AbortCalled names ++ evs).
    split_and!.
    + destruct H as [(e & _ & _ & ->)|(content & lout & _ & Heq)]; [done|].
      rewrite <- T. pose proof (request_outcome_frame (length (controllers σ)) r' lout σ'')
        as (T' & _). by rewrite <- Heq in T'.
    + destruct H as [(e & _ & -> & _)|(content & lout & Hrun & _)].
      * by destruct (order_of_prelude names) as (_ & _ & ->).
      * by destruct (order_of_run _ names _ _ _ _ _ Hrun) as (_ & _ & _ & ?).
    + by apply lookup_ge_None_2.
    + intros r'' ->. destruct H as [(e & ? & _)|(content & lout & _ & Heq)]; [done|].
      destruct lout as [[]|]; cbn in Heq; inversion Heq; subst.
      cbn. rewrite Hid. by rewrite lookup_insert_eq.
  - pose proof (processResponse_summary host this executed response options r σ) as H.
    cbv zeta in H.
    destruct (processResponse host this executed response options r σ) as [[out r'] σ'].
    destruct H as (Hid & names & evs & σ'' & (T & _) & H).
    exists (map AbortCalled names ++ evs). rewrite <- response_controller_default.
    split.
    + destruct H as [(e & _ & _ & ->)|(content & lout & _ & Heq)]; [done|].
      rewrite <- T. pose proof (response_outcome_frame r' lout σ'') as (T' & _).
      by rewrite <- Heq in T'.
    + destruct H as [(e & _ & -> & _)|(content & lout & Hrun & _)].
      * by destruct (order_of_prelude names) as (_ & _ & ->).
      * by destruct (order_of_run _ names _ _ _ _ _ Hrun) as (_ & _ & _ & ?).
Qed.


(** C8, as it stands, fails: the environment object that a context with the
    "environment" permission refers to is not frozen. Its fields can be
    assigned and deleted, so the context is not deeply frozen. *)
Lemma context_environment_not_frozen :
  let '(context, h') :=
    buildExecutionContext (sample_this []) ["environment"] (JsRef 0) sample_heap in
  js_get context "environment" h' = JsRef 0 ∧
  js_get 0 "variables" h' = JsString "host=example.org" ∧
  js_get 0 "variables" (js_assign 0 "variables" (JsString "host=evil.example") h')
    = JsString "host=evil.example" ∧
  js_has 0 "variables" (js_delete 0 "variables" h') = false ∧
  ¬ deeply_frozen h' context.
Proof.
  vm_compute buildExecutionContext.
  split; [by vm_compute|]. split; [by vm_compute|]. split; [by vm_compute|].
  split; [by vm_compute|].
  intros Hd.
  destruct (Hd 0) as (o & Ho & Hf).
  - eapply (reachable_step _ 1 _ "environment" 0); [reflexivity| |constructor].
    by vm_compute.
  - vm_compute in Ho. inversion Ho; subst. discriminate.
Qed.

(** C8, amended. The context object and the [Events] and [Store] bundles that
    the builder creates are frozen: no property of these three objects can
    be added, removed or assigned. The builder freezes nothing else: the
    objects that existed before, the environment data among them, are left
    as they were. *)
Theorem buildExecutionContext_frozen this permissions environment (h : js_heap) :
  let '(context, h') := buildExecutionContext this permissions environment h in
  is_frozen h' context ∧
  (∀ k v, js_assign context k v h' = h' ∧ js_delete context k h' = h') ∧
  (∀ name bundle,
     name = "Events" ∨ name = "Store" →
     js_get context name h' = JsRef bundle →
     is_frozen h' bundle ∧
     ∀ k v, js_assign bundle k v h' = h' ∧ js_delete bundle k h' = h') ∧
  (∀ l, l < length h → h' !! l = h !! l).
Proof.
  rewrite buildExecutionContext_eq.
  pose proof (context_props_lookups this permissions environment (S (length h))
                (S (length h) + length (events_part permissions)))
    as (Ht & He & Hev & Hst).
  pose proof (lookup_events_object h) as Hevents.
  pose proof (lookup_store_object h) as Hstore.
  set (ctx := JsObject _ true) in *. set (h' := h ++ ctx :: _).
  assert (Hread : ∀ name, js_get (length h) name h'
                          = default JsUndefined (props ctx !! name)).
  { intros name. unfold js_get, h'. by rewrite lookup_context_object. }
  assert (Hall : ∀ l, is_frozen h' l →
                      is_frozen h' l ∧
                      ∀ k v, js_assign l k v h' = h' ∧ js_delete l k h' = h').
  { intros l Hf. split; [done|]. intros k v.
    split; [by apply js_assign_frozen | by apply js_delete_frozen]. }
  assert (Hctx : is_frozen h' (length h))
    by (eexists; split; [apply lookup_context_object | done]).
  split; [exact Hctx|]. split; [apply Hall, Hctx|]. split.
  - intros name bundle [-> | ->]; rewrite Hread; cbn [props ctx].
    + rewrite Hev. destruct (includes permissions "events") eqn:Hin; [|done].
      cbn. intros [= <-]. apply Hall. eexists. split; [by apply Hevents | done].
    + rewrite Hst. destruct (includes permissions "store") eqn:Hin; [|done].
      cbn. intros [= <-]. apply Hall. eexists. split; [by apply Hstore | done].
  - intros l Hl. by apply lookup_app_l.
Qed.

(** C9. In [processRequest] the early exit under [if (signal.aborted)] is
    never taken: when the map holds created controllers only, the loop never
    ends there, the controller of the call is the one the call created, and
    its signal still reads [false] when the loop is over (hence at every
    iteration, since a signal is never reset). *)
Theorem processRequest_cancel_unreachable host this options r σ :
  registry_wf σ →
  (∀ c, (processRequest_run host this options r σ).1.1 ≠ Resolved (c, Cancelled)) ∧
  (∀ c exit, (processRequest_run host this options r σ).1.1 = Resolved (c, exit) →
             c = length (controllers σ)) ∧
  signal_aborted (length (controllers σ)) (processRequest_run host this options r σ).2
    = false.
Proof.
  intros Hwf. pose proof (processRequest_run_spec host this options r σ) as H.
  cbv zeta in H.
  destruct (processRequest_run host this options r σ) as [[out r'] σ']. cbn [fst snd].
  destruct H as (_ & names & H).
  pose proof (interleave_out_of_reach _ names _ (new_AbortController_out_of_reach σ Hwf))
    as Hreach.
  destruct H as [(e & -> & ->)|(r1 & environment & _ & Heq)].
  - split_and!; [done | done |]. unfold signal_aborted. by destruct Hreach as [-> _].
  - pose proof (processRequest_modules_out_of_reach host this (requestModules σ) environment
                  (length (controllers σ)) r1 _ Hreach) as Hloop.
    destruct (processRequest_modules _ _ _ _ _ _ _) as [[lout r2] σ2].
    destruct Hloop as [Hne [Hsig _]]. inversion Heq; subst.
    split_and!.
    + intros c Hc. destruct lout as [exit|]; [|done]. cbn in Hc.
      inversion Hc; subst. done.
    + intros c exit Hc. destruct lout as [exit'|]; [|done]. cbn in Hc. by inversion Hc.
    + unfold signal_aborted. by rewrite Hsig.
Qed.

(** C9, at a run during which the host calls [abort] for the request's id
    while the map holds a controller of an earlier run under that id. *)
Lemma processRequest_cancel_unreachable_witness :
  abortControllers (sent_state (Resolved None)) !! "r1" = Some 0 ∧
  (∀ c, (processRequest_run sample_host (sample_this ["r1"]) default_options
           sent_request (sent_state (Resolved None))).1.1 ≠ Resolved (c, Cancelled)) ∧
  signal_aborted (length (controllers (sent_state (Resolved None))))
    (processRequest_run sample_host (sample_this ["r1"]) default_options
       sent_request (sent_state (Resolved None))).2 = false.
Proof.
  split; [vm_compute; reflexivity|].
  pose proof (processRequest_cancel_unreachable sample_host (sample_this ["r1"])
                default_options sent_request (sent_state (Resolved None))) as H.
  destruct H as (H1 & _ & H3).
  - unfold registry_wf. apply (bool_decide_unpack _). vm_compute. exact I.
  - exact (conj H1 H3).
Defined.

(** C10. When a request module throws during [processRequest], the call
    rejects with that module's error and the call itself has not touched the
    map: the map is what it was before the call less the ids the host called
    [abort] with meanwhile, so it is exactly as before when the host made no
    such call; no entry is new, and if the request's id had no controller
    before it has none after. *)
Theorem module_fault_leaves_registry host this options r σ evs name e content :
  trace (processRequest host this options r σ).2 = trace σ ++ evs →
  Settled name (Rejected e) content ∈ evs →
  (processRequest host this options r σ).1.1 = Rejected (module_error name e) ∧
  abortControllers (processRequest host this options r σ).2
    = foldl (λ m name, delete name m) (abortControllers σ) (abort_names evs) ∧
  (abort_names evs = [] →
   abortControllers (processRequest host this options r σ).2 = abortControllers σ) ∧
  (∀ n c, abortControllers (processRequest host this options r σ).2 !! n = Some c →
          abortControllers σ !! n = Some c) ∧
  (abortControllers σ !! id r = None →
   abortControllers (processRequest host this options r σ).2 !! id r = None).
Proof.
  intros Htr Hin. apply list_elem_of_split in Hin as (pre & post & ->).
  pose proof (processRequest_settled host this options r σ pre name (Rejected e)
                content post) as H.
  destruct (processRequest host this options r σ) as [[out r'] σ']. cbn [fst snd] in *.
  destruct (H Htr) as (Hid & names & evs & pre' & content0 & lout & σ'' &
                       (T & R & _) & Hevs & Hrun & Heq).
  destruct (run_trace_halts _ _ _ _ _ _ Hrun _ _ _ _ _ Hevs) as (-> & _ & ->).
  inversion Heq; subst out σ'.
  assert (Hnew : map AbortCalled names ++ evs
                 = pre ++ [Settled name (Rejected e) content]).
  { rewrite Htr in T. by apply app_inv_head in T. }
  rewrite Hnew in R.
  assert (Hsub : ∀ n c, abortControllers σ'' !! n = Some c →
                        abortControllers σ !! n = Some c).
  { intros n c. rewrite R. apply lookup_foldl_delete. }
  split_and!; [done | done | | done |].
  - intros Hnil. by rewrite R, Hnil.
  - intros Hnone. destruct (abortControllers σ'' !! id r) as [c|] eqn:E; [|done].
    apply Hsub in E. congruence.
Qed.

(** C10, at a run in which the second module throws, the map holds a
    controller under the request's id, and the host calls [abort] for
    another id. *)
Lemma module_fault_leaves_registry_witness :
  (processRequest sample_host (sample_this ["other"]) default_options sample_request
     faulty_state).1.1 = Rejected (module_error "m2" (Error "boom")) ∧
  abortControllers faulty_state !! "r1" = Some 0 ∧
  (∀ n c,
     abortControllers (processRequest sample_host (sample_this ["other"]) default_options
                         sample_request faulty_state).2 !! n = Some c →
     abortControllers faulty_state !! n = Some c).
Proof.
  pose proof (module_fault_leaves_registry sample_host (sample_this ["other"])
    default_options sample_request faulty_state
    [AbortCalled "other"; Invoked "m1" 1 (edited "");
     Settled "m1" (Resolved None) (edited "a"); Invoked "m2" 1 (edited "a");
     Settled "m2" (Rejected (Error "boom")) (edited "ab")]
    "m2" (Error "boom") (edited "ab")) as H.
  destruct H as (H1 & _ & _ & H4 & _).
  - vm_compute. reflexivity.
  - do 4 apply list_elem_of_further. apply list_elem_of_here.
  - split; [exact H1|]. split; [vm_compute; reflexivity | exact H4].
Defined.

(** * Further properties *)

(** *** Properties kept by every step of a pipeline *)

Section Kept.
Variable P : State → Prop.
Hypothesis P_log : ∀ ev σ, P σ → P (log ev σ).
Hypothesis P_objects : ∀ h σ, P σ → P (with_objects h σ).
Hypothesis P_console : ∀ e σ, P σ → P (console_warn e σ).
Hypothesis P_abort : ∀ name σ, P σ → P (abort name σ).
Hypothesis P_delete : ∀ name σ, P σ → P (with_abortControllers (delete name) σ).

Lemma interleave_keeps names σ : P σ → P (interleave names σ).
Proof using P_log P_abort.
  revert σ. induction names as [|n names IH]; intros σ H; [done|].
  cbn [interleave foldl]. apply IH. unfold host_abort. by apply P_abort, P_log.
Qed.

Lemma module_step_keeps name c h call r σ :
  P σ → P (module_step name c h call r σ).2.
Proof using P_log P_objects P_console P_abort.
  intros H. unfold module_step.
  assert (H1 : P (log (Settled name (settled (call.2)) (call.1))
                    (interleave (abort_calls (call.2))
                       (log (Invoked name c (request r)) (with_objects h σ)))))
    by (by apply P_log, interleave_keeps, P_log, P_objects).
  destruct (settled (call.2)); [done|]. by apply P_console.
Qed.

Lemma processRequest_modules_keeps host this modules environment c r σ :
  P σ → P (processRequest_modules host this modules environment c r σ).2.
Proof using P_log P_objects P_console P_abort P_delete.
  revert r σ. induction modules as [|[name main] modules IH]; intros r σ H; [done|].
  cbn [processRequest_modules]. unfold bind at 1. unfold gets at 1.
  destruct (signal_aborted c σ); [by apply P_delete|].
  unfold bind at 1. rewrite executeRequestModule_eq.
  destruct (buildExecutionContext _ _ _ _) as [context h]. cbv zeta.
  set (σ0 := interleave (abort_calls_before host name) (with_objects h σ)).
  assert (H0 : P σ0) by (by apply interleave_keeps, P_objects).
  set (call := fn main r h context _).
  pose proof (module_step_keeps name c h call r σ0 H0) as H1.
  destruct (module_step name c h call r σ0) as [[[result|e] r1] σ1]; [|done].
  destruct (is_ABORT result); [done|]. by apply IH.
Qed.

Lemma processResponse_modules_keeps host this executed response modules environment c r σ :
  P σ →
  P (processResponse_modules host this executed response modules environment c r σ).2.
Proof using P_log P_objects P_console P_abort P_delete.
  revert r σ. induction modules as [|[name main] modules IH]; intros r σ H; [done|].
  cbn [processResponse_modules]. unfold bind at 1. unfold gets at 1.
  destruct (signal_aborted c σ); [by apply P_delete|].
  unfold bind at 1. rewrite executeResponseModule_eq.
  destruct (buildExecutionContext _ _ _ _) as [context h]. cbv zeta.
  set (σ0 := interleave (abort_calls_before host name) (with_objects h σ)).
  assert (H0 : P σ0) by (by apply interleave_keeps, P_objects).
  set (call := fn main r executed response h context _).
  pose proof (module_step_keeps name c h call r σ0 H0) as H1.
  destruct (module_step name c h call r σ0) as [[[result|e] r1] σ1]; [|done].
  destruct (is_ABORT result); [by apply P_delete|]. by apply IH.
Qed.
End Kept.

(** *** The map stays in order *)

Lemma registry_ok_spec σ :
  registry_ok σ ↔
  ∀ name c, abortControllers σ !! name = Some c →
            controllers σ !! c = Some false ∧
            ∀ name', abortControllers σ !! name' = Some c → name' = name.
Proof.
  unfold registry_ok. split.
  - intros H name c Hl. destruct (H name c Hl) as [Hc Hinj]. split; [done|].
    intros name' Hl'. by apply (Hinj name' c).
  - intros H name c Hl. destruct (H name c Hl) as [Hc Hinj]. split; [done|].
    intros name' c' Hl' ->. by apply Hinj.
Qed.

Lemma registry_ok_wf σ : registry_ok σ → registry_wf σ.
Proof.
  intros Hok name c Hl.
  destruct (proj1 (registry_ok_spec σ) Hok name c Hl) as [Hc _].
  cbn. by eapply lookup_lt_Some.
Qed.

Lemma abort_registry_ok name σ : registry_ok σ → registry_ok (abort name σ).
Proof.
  rewrite !registry_ok_spec. intros Hok. unfold abort.
  destruct (abortControllers σ !! name) as [c0|] eqn:E; [|done].
  intros n c Hl. cbn in Hl |- *. apply lookup_delete_Some in Hl as [Hne Hl].
  destruct (Hok n c Hl) as [Hc Hinj]. split.
  - rewrite list_lookup_insert_ne; [done|]. intros <-. by apply Hinj in E.
  - intros n' Hl'. apply lookup_delete_Some in Hl' as [_ Hl']. by apply Hinj.
Qed.

Lemma delete_registry_ok name σ :
  registry_ok σ → registry_ok (with_abortControllers (delete name) σ).
Proof.
  rewrite !registry_ok_spec. intros Hok n c Hl. cbn in Hl |- *.
  apply lookup_delete_Some in Hl as [Hne Hl].
  destruct (Hok n c Hl) as [Hc Hinj]. split; [done|].
  intros n' Hl'. apply lookup_delete_Some in Hl' as [_ Hl']. by apply Hinj.
Qed.

Lemma new_AbortController_registry_ok σ :
  registry_ok σ → registry_ok (new_AbortController σ).2.
Proof.
  rewrite !registry_ok_spec. intros Hok n c Hl. cbn in Hl |- *.
  destruct (Hok n c Hl) as [Hc Hinj].
  split; [by apply lookup_app_l_Some | done].
Qed.

Lemma set_registry_ok name c σ :
  registry_ok σ → out_of_reach c σ →
  registry_ok (with_abortControllers (<[name := c]>) σ).
Proof.
  rewrite !registry_ok_spec. intros Hok [Hc Hout] n c1 Hl. cbn in Hl |- *.
  apply lookup_insert_Some in Hl as [[<- <-]|[Hne Hl]].
  - split; [done|]. intros n' Hl'.
    apply lookup_insert_Some in Hl' as [[<- _]|[_ Hl']]; [done|]. by apply Hout in Hl'.
  - destruct (Hok n c1 Hl) as [Hc1 Hinj]. split; [done|].
    intros n' Hl'.
    apply lookup_insert_Some in Hl' as [[_ <-]|[_ Hl']]; [by apply Hout in Hl|].
    by apply Hinj.
Qed.

Lemma processRequest_registry_ok host this options r σ :
  registry_ok σ → registry_ok (processRequest host this options r σ).2.
Proof.
  intros Hok. rewrite processRequest_eq.
  pose proof (processRequest_run_spec host this options r σ) as H. cbv zeta in H.
  destruct (processRequest_run host this options r σ) as [[out r'] σ'].
  destruct H as (Hid & names & H).
  set (c := length (controllers σ)) in *.
  set (Q := λ σ, registry_ok σ ∧ out_of_reach c σ).
  assert (HQ : ∀ names, Q (interleave names (new_AbortController σ).2)).
  { intros ns. split.
    - apply interleave_keeps; [done | apply abort_registry_ok |].
      by apply new_AbortController_registry_ok.
    - apply interleave_out_of_reach, new_AbortController_out_of_reach.
      by apply registry_ok_wf. }
  destruct H as [(e & -> & ->)|(r1 & environment & Hid1 & Heq)]; [apply HQ|].
  assert (HQ' : Q (processRequest_modules host this (requestModules σ) environment c r1
                     (interleave names (new_AbortController σ).2)).2).
  { destruct (HQ names) as [H1 H2]. split.
    - apply processRequest_modules_keeps; try done.
      + apply abort_registry_ok.
      + apply delete_registry_ok.
    - apply (processRequest_modules_keeps (out_of_reach c)); try done.
      + intros n σ0. apply abort_out_of_reach.
      + intros n σ0 [Hc Hr]. split; [done|]. intros n' c' Hl. cbn in Hl.
        apply lookup_delete_Some in Hl as [_ Hl]. by apply (Hr n'). }
  destruct (processRequest_modules _ _ _ _ _ _ _) as [[lout r2] σ2].
  inversion Heq; subst out r' σ'. destruct HQ' as [H1 H2]. cbn [snd] in *.
  destruct lout as [[]|e]; cbn [tag_exit snd]; try done.
  by apply set_registry_ok.
Qed.

Lemma processResponse_registry_ok host this executed response options r σ :
  registry_ok σ →
  registry_ok (processResponse host this executed response options r σ).2.
Proof.
  intros Hok. rewrite processResponse_eq.
  pose proof (processResponse_run_spec host this executed response options r σ) as H.
  cbv zeta in H.
  destruct (processResponse_run host this executed response options r σ)
    as [[out r'] σ'].
  destruct H as (Hid & names & H).
  assert (H0 : registry_ok (response_controller r σ).2).
  { unfold response_controller. destruct (abortControllers σ !! id r); [done|].
    by apply new_AbortController_registry_ok. }
  assert (H1 : registry_ok (interleave names (response_controller r σ).2))
    by (apply interleave_keeps; [done | apply abort_registry_ok | done]).
  destruct H as [(e & -> & ->)|(r1 & environment & Hid1 & Heq)]; [done|].
  assert (H2 : registry_ok
                 (processResponse_modules host this executed response (responseModules σ)
                    environment (response_controller r σ).1 r1
                    (interleave names (response_controller r σ).2)).2).
  { apply processResponse_modules_keeps; try done.
    - apply abort_registry_ok.
    - apply delete_registry_ok. }
  destruct (processResponse_modules _ _ _ _ _ _ _ _ _) as [[lout r2] σ2].
  inversion Heq; subst out r' σ'. cbn [snd] in *.
  destruct lout as [[]|e]; cbn [tag_exit snd]; try done.
  by apply delete_registry_ok.
Qed.

(** *** A controller the host can reach through the map *)

Lemma aborted_stays (cs : list bool) c c0 :
  default false (cs !! c) = true → default false (<[c0 := true]> cs !! c) = true.
Proof.
  intros H. destruct (cs !! c) as [b|] eqn:E; [|done]. cbn in H. subst b.
  destruct (decide (c0 = c)) as [->|Hne].
  - rewrite list_lookup_insert_eq; [done|]. by eapply lookup_lt_Some.
  - rewrite list_lookup_insert_ne by done. by rewrite E.
Qed.

Lemma tripped_kept c :
  (∀ ev σ, signal_aborted c σ = true → signal_aborted c (log ev σ) = true) ∧
  (∀ h σ, signal_aborted c σ = true → signal_aborted c (with_objects h σ) = true) ∧
  (∀ e σ, signal_aborted c σ = true → signal_aborted c (console_warn e σ) = true) ∧
  (∀ name σ, signal_aborted c σ = true → signal_aborted c (abort name σ) = true) ∧
  (∀ name σ, signal_aborted c σ = true →
             signal_aborted c (with_abortControllers (delete name) σ) = true).
Proof.
  split_and!; try done.
  intros name σ H. unfold abort.
  destruct (abortControllers σ !! name) as [c0|]; [|done].
  by apply aborted_stays.
Qed.

Lemma interleave_tripped c names σ :
  signal_aborted c σ = true → signal_aborted c (interleave names σ) = true.
Proof.
  destruct (tripped_kept c) as (H1 & _ & _ & H4 & _).
  by apply (interleave_keeps (λ σ, signal_aborted c σ = true)).
Qed.

Lemma interleave_armed name (c : loc) names σ :
  abortControllers σ !! name = Some c → c < length (controllers σ) →
  if decide (name ∈ names)
  then signal_aborted c (interleave names σ) = true
  else abortControllers (interleave names σ) !! name = Some c ∧
       c < length (controllers (interleave names σ)).
Proof.
  revert σ. induction names as [|n names IH]; intros σ Hl Hlt.
  - rewrite decide_False by set_solver. done.
  - cbn [interleave foldl]. fold (interleave names (host_abort σ n)).
    destruct (decide (n = name)) as [->|Hne].
    + rewrite decide_True by set_solver. apply interleave_tripped.
      unfold host_abort, abort.
      change (abortControllers (log (AbortCalled name) σ)) with (abortControllers σ).
      rewrite Hl. unfold signal_aborted.
      cbn [controllers with_abortControllers with_controllers log].
      by rewrite list_lookup_insert_eq.
    + assert (Hl' : abortControllers (host_abort σ n) !! name = Some c).
      { unfold host_abort.
        destruct (abort_facts n (log (AbortCalled n) σ)) as (_ & -> & _).
        by rewrite lookup_delete_ne. }
      assert (Hlt' : c < length (controllers (host_abort σ n))).
      { unfold host_abort.
        destruct (abort_facts n (log (AbortCalled n) σ)) as (_ & _ & -> & _). done. }
      specialize (IH _ Hl' Hlt').
      destruct (decide (name ∈ names)) as [Hin|Hnin].
      * by rewrite decide_True by set_solver.
      * by rewrite decide_False by set_solver.
Qed.

Lemma tripped_loop host this executed response modules environment c r σ :
  signal_aborted c σ = true →
  trace (processResponse_modules host this executed response modules environment c r σ).2
    = trace σ.
Proof.
  intros H. destruct modules as [|[name main] modules]; [done|].
  cbn [processResponse_modules]. unfold bind at 1. unfold gets at 1. by rewrite H.
Qed.

Lemma split_after (l1 l2 pre post : list event) x :
  l1 ++ l2 = pre ++ x :: post → x ∉ l1 → ∃ pre', l2 = pre' ++ x :: post.
Proof.
  intros Heq Hnin. apply app_eq_inv in Heq as [(k & -> & Hk)|(k & -> & Hk)].
  - destruct k as [|y k]; cbn in Hk; [exists []; by rewrite Hk|].
    inversion Hk; subst. set_solver.
  - by exists k.
Qed.

Lemma no_invocation_after (l pre post : list event) x :
  invoked_names l = [] → l = pre ++ x :: post → invoked_names post = [].
Proof.
  intros Hl ->. unfold invoked_names in *. rewrite omap_app in Hl.
  apply app_eq_nil in Hl as [_ Hl]. cbn in Hl.
  destruct (match x with Invoked name _ _ => Some name | _ => None end); [done|].
  exact Hl.
Qed.

Lemma nothing_after (l pre post : list event) x :
  invoked_names l = [] → l = pre ++ x :: post →
  length (invoked_names post) ≤ 1 ∧
  ∀ post1 name p content post2,
    post = post1 ++ Settled name p content :: post2 → invoked_names post2 = [].
Proof.
  intros Hl Heq. pose proof (no_invocation_after _ _ _ _ Hl Heq) as Hpost. split.
  - rewrite Hpost. cbn. lia.
  - intros post1 name p content post2 Hp. by eapply no_invocation_after.
Qed.

Lemma abort_call_in_step before name c content aborts p content' n :
  AbortCalled n ∈ map AbortCalled before ++ Invoked name c content
                    :: map AbortCalled aborts ++ [Settled name p content']
  ↔ n ∈ before ++ aborts.
Proof.
  rewrite !elem_of_app, elem_of_cons, elem_of_app, !list_elem_of_fmap,
    list_elem_of_singleton.
  split.
  - intros [(m & [= ->] & Hm)|[?|[(m & [= ->] & Hm)|?]]]; try done; [by left | by right].
  - intros [H|H]; [left | right; right; left]; by exists n.
Qed.

(** Within the events of one module, what follows a call of [abort]: at most
    the module's invocation, and nothing after its settlement. *)
Lemma after_abort_in_step before name c content aborts p content' pre n post :
  map AbortCalled before ++ Invoked name c content
    :: map AbortCalled aborts ++ [Settled name p content']
  = pre ++ AbortCalled n :: post →
  length (invoked_names post) ≤ 1 ∧
  ∀ post1 name' p' content'' post2,
    post = post1 ++ Settled name' p' content'' :: post2 → invoked_names post2 = [].
Proof.
  intros Heq. split.
  - assert (H : invoked_names (pre ++ AbortCalled n :: post) = [name]).
    { rewrite <- Heq, invoked_names_calls.
      cbn [invoked_names omap list_omap]. fold (invoked_names (map AbortCalled aborts
        ++ [Settled name p content'])). by rewrite invoked_names_calls. }
    unfold invoked_names in H. rewrite omap_app in H. cbn [omap list_omap] in H.
    apply (f_equal length) in H. rewrite length_app in H. cbn in H.
    unfold invoked_names. lia.
  - intros post1 name' p' content'' post2 ->.
    rewrite step_events_split in Heq.
    replace (pre ++ AbortCalled n :: post1 ++ Settled name' p' content'' :: post2)
      with ((pre ++ AbortCalled n :: post1) ++ Settled name' p' content'' :: post2) in Heq
      by (by rewrite <- app_assoc).
    apply split_at_settled in Heq as [(_ & _ & ->)|(pre' & Hnil)];
      [done | by destruct pre' | apply calls_are_calls].
Qed.

(** The controller the map holds under an id, after one module: aborted if
    the host called [abort] for the id meanwhile, still held otherwise. *)
Lemma armed_step host name (c : loc) h call r σ :
  abortControllers σ !! id r = Some c → c < length (controllers σ) →
  if decide (id r ∈ abort_calls_before host name ++ abort_calls (call.2))
  then signal_aborted c
         (module_step name c h call r
            (interleave (abort_calls_before host name) (with_objects h σ))).2 = true
  else abortControllers
         (module_step name c h call r
            (interleave (abort_calls_before host name) (with_objects h σ))).2 !! id r
       = Some c ∧
       c < length (controllers
                     (module_step name c h call r
                        (interleave (abort_calls_before host name) (with_objects h σ))).2).
Proof.
  intros Hl Hlt.
  pose proof (interleave_armed (id r) c (abort_calls_before host name) (with_objects h σ)
                Hl Hlt) as H0.
  set (σ0 := interleave (abort_calls_before host name) (with_objects h σ)) in *.
  destruct (tripped_kept c) as (Tlog & Tobj & Tcons & Tab & Tdel).
  destruct (decide (id r ∈ abort_calls_before host name)) as [Hin|Hnin].
  - rewrite decide_True by set_solver.
    by apply (module_step_keeps (λ σ, signal_aborted c σ = true)).
  - destruct H0 as [Hl0 Hlt0].
    pose proof (interleave_armed (id r) c (abort_calls (call.2))
                  (log (Invoked name c (request r)) (with_objects h σ0)) Hl0 Hlt0) as H1.
    unfold module_step.
    destruct (decide (id r ∈ abort_calls (call.2))) as [Hin'|Hnin'].
    + rewrite decide_True by set_solver.
      destruct (settled (call.2)); cbn [snd]; [by apply Tlog | by apply Tcons, Tlog].
    + rewrite decide_False by set_solver. by destruct (settled (call.2)).
Qed.

Lemma armed_loop host this executed response modules environment (c : loc) r σ :
  abortControllers σ !! id r = Some c → c < length (controllers σ) →
  ∀ evs pre post,
    trace (processResponse_modules host this executed response modules environment c r σ).2
      = trace σ ++ evs →
    evs = pre ++ AbortCalled (id r) :: post →
    length (invoked_names post) ≤ 1 ∧
    ∀ post1 name p content post2,
      post = post1 ++ Settled name p content :: post2 → invoked_names post2 = [].
Proof.
  revert r σ. induction modules as [|[name main] modules IH];
    intros r σ Hl Hlt evs pre post Htr Hevs.
  - cbn in Htr. assert (evs = []) as -> by (by eapply app_inv_head; rewrite app_nil_r).
    by destruct pre.
  - revert Htr. cbn [processResponse_modules]. unfold bind at 1. unfold gets at 1.
    destruct (signal_aborted c σ) eqn:Hsig.
    { cbn. intros Htr.
      assert (evs = []) as -> by (by eapply app_inv_head; rewrite app_nil_r).
      by destruct pre. }
    unfold bind at 1. rewrite executeResponseModule_eq.
    destruct (buildExecutionContext _ _ _ _) as [context h]. cbv zeta.
    set (σ0 := interleave (abort_calls_before host name) (with_objects h σ)).
    set (call := fn main r executed response h context _).
    pose proof (module_call_host_only host name c h call r σ) as Hstep.
    pose proof (armed_step host name c h call r σ Hl Hlt) as Hσ1.
    fold σ0 in Hstep, Hσ1.
    destruct (module_step name c h call r σ0) as [[out1 r1] σ1]. cbn [snd] in Hσ1.
    destruct Hstep as ((T1 & _) & -> & ->).
    set (evs1 := map AbortCalled (abort_calls_before host name)
                   ++ Invoked name c (request r) :: map AbortCalled (abort_calls (call.2))
                   ++ [Settled name (settled (call.2)) (call.1)]) in *.
    assert (Hend : ∀ σ', trace σ' = trace σ1 → trace σ' = trace σ ++ evs →
                         length (invoked_names post) ≤ 1 ∧
                         ∀ post1 name p content post2,
                           post = post1 ++ Settled name p content :: post2 →
                           invoked_names post2 = []).
    { intros σ' Hsame Htr. rewrite Hsame, T1 in Htr. apply app_inv_head in Htr.
      subst evs. unfold evs1 in Htr. by eapply after_abort_in_step. }
    destruct (settled (call.2)) as [result|e]; [|by apply Hend].
    destruct (is_ABORT result); [by apply Hend|].
    destruct (decide (id r ∈ abort_calls_before host name ++ abort_calls (call.2)))
      as [Hin|Hnin].
    + apply Hend. by apply tripped_loop.
    + intros Htr. destruct Hσ1 as [Hl1 Hlt1].
      pose proof (processResponse_modules_spec host this executed response modules environment
                    c (with_content (call.1) r) σ1) as Hspec.
      destruct (processResponse_modules host this executed response modules environment c
                  (with_content (call.1) r) σ1) as [[out2 r2] σ2] eqn:Hloop.
      destruct Hspec as (evs2 & σ'' & (T2 & _) & Hσ2 & _).
      assert (Htr2 : trace σ2 = trace σ1 ++ evs2).
      { rewrite Hσ2. by destruct (decide _). }
      cbn [snd] in Htr. rewrite Htr2, T1, <- app_assoc in Htr.
      apply app_inv_head in Htr. subst evs.
      apply split_after in Htr as (pre' & Hevs2);
        [|unfold evs1; by rewrite abort_call_in_step].
      eapply (IH (with_content (call.1) r) σ1 Hl1 Hlt1 evs2 pre' post); [|done].
      by rewrite Hloop.
Qed.

Lemma abort_call_in_calls names n : AbortCalled n ∈ map AbortCalled names ↔ n ∈ names.
Proof.
  rewrite list_elem_of_fmap. split; [by intros (m & [= ->] & Hm)|].
  intros H. by exists n.
Qed.

Lemma processResponse_trace_eq host this executed response options r σ :
  trace (processResponse host this executed response options r σ).2
    = trace (processResponse_run host this executed response options r σ).2.
Proof.
  rewrite processResponse_eq.
  by destruct (processResponse_run host this executed response options r σ)
    as [[[[c []]|e] r'] σ'].
Qed.

Lemma processResponse_modules_out_of_reach host this executed response modules environment c r σ :
  out_of_reach c σ →
  let '(out, r', σ') :=
    processResponse_modules host this executed response modules environment c r σ in
  out ≠ Resolved Cancelled ∧ out_of_reach c σ'.
Proof.
  revert r σ. induction modules as [|[name main] modules IH]; intros r σ H.
  - by cbn.
  - cbn [processResponse_modules]. unfold bind at 1. unfold gets at 1.
    assert (Hsig : signal_aborted c σ = false).
    { unfold signal_aborted. destruct H as [-> _]. done. }
    rewrite Hsig. unfold bind at 1. rewrite executeResponseModule_eq.
    destruct (buildExecutionContext _ _ _ _) as [context h]. cbv zeta.
    set (σ0 := interleave (abort_calls_before host name) (with_objects h σ)).
    assert (H0 : out_of_reach c σ0) by (by apply interleave_out_of_reach).
    set (call := fn main r executed response h context _).
    pose proof (module_step_out_of_reach c name c h call r σ0 H0) as H1.
    pose proof (module_step_host_only name c h call r σ0) as H2.
    destruct (module_step name c h call r σ0) as [[out1 r1] σ1].
    destruct H2 as (_ & -> & ->).
    destruct (settled (call.2)) as [result|e]; [|done].
    destruct (is_ABORT result); [|by apply IH].
    cbn. split; [done|]. destruct H1 as [Hc Hr]. split; [done|].
    intros n c' Hl. cbn in Hl. apply lookup_delete_Some in Hl as [_ Hl]. by apply (Hr n).
Qed.

Lemma processResponse_run_unregistered host this executed response options
    r σ :
  registry_wf σ →
  abortControllers σ !! id r = None →
  (∀ c, (processResponse_run host this executed response options r σ).1.1
          ≠ Resolved (c, Cancelled)) ∧
  (∀ c exit, (processResponse_run host this executed response options r σ).1.1
               = Resolved (c, exit) → c = length (controllers σ)) ∧
  signal_aborted (length (controllers σ))
    (processResponse_run host this executed response options r σ).2 = false.
Proof.
  intros Hwf Hl.
  pose proof (processResponse_run_spec host this executed response options r σ) as H.
  cbv zeta in H. unfold response_controller in H. rewrite Hl in H.
  destruct (processResponse_run host this executed response options r σ)
    as [[out r'] σ']. cbn [fst snd] in *.
  destruct H as (_ & names & H).
  pose proof (interleave_out_of_reach _ names _ (new_AbortController_out_of_reach σ Hwf))
    as Hreach.
  destruct H as [(e & -> & ->)|(r1 & environment & _ & Heq)].
  - split_and!; [done | done |]. unfold signal_aborted. by destruct Hreach as [-> _].
  - pose proof (processResponse_modules_out_of_reach host this executed response
                  (responseModules σ) environment (length (controllers σ)) r1 _ Hreach)
      as Hloop.
    destruct (processResponse_modules _ _ _ _ _ _ _ _ _) as [[lout r2] σ2].
    destruct Hloop as [Hne [Hsig _]]. inversion Heq; subst.
    split_and!.
    + intros c Hc. destruct lout as [exit|]; [|done]. cbn in Hc.
      inversion Hc; subst. done.
    + intros c exit Hc. destruct lout as [exit'|]; [|done]. cbn in Hc. by inversion Hc.
    + unfold signal_aborted. by rewrite Hsig.
Qed.

Lemma processRequest_run_not_cancelled host this options r σ :
  registry_wf σ →
  ∀ c, (processRequest_run host this options r σ).1.1 ≠ Resolved (c, Cancelled).
Proof.
  intros Hwf. pose proof (processRequest_run_spec host this options r σ) as H.
  cbv zeta in H.
  destruct (processRequest_run host this options r σ) as [[out r'] σ']. cbn [fst snd].
  destruct H as (_ & names & H).
  pose proof (interleave_out_of_reach _ names _ (new_AbortController_out_of_reach σ Hwf))
    as Hreach.
  destruct H as [(e & -> & ->)|(r1 & environment & _ & Heq)]; [done|].
  pose proof (processRequest_modules_out_of_reach host this (requestModules σ) environment
                (length (controllers σ)) r1 _ Hreach) as Hloop.
  destruct (processRequest_modules _ _ _ _ _ _ _) as [[lout r2] σ2].
  destruct Hloop as [Hne _]. inversion Heq; subst.
  intros c Hc. destruct lout as [exit|]; [|done]. cbn in Hc. inversion Hc; subst. done.
Qed.

(** *** Contents handed from module to module *)

Lemma handed_on_calls current aborts evs :
  handed_on current (map AbortCalled aborts ++ evs) ↔ handed_on current evs.
Proof. induction aborts; [done | exact IHaborts]. Qed.

Lemma left_with_calls current aborts evs :
  left_with current (map AbortCalled aborts ++ evs) = left_with current evs.
Proof. induction aborts; [done | exact IHaborts]. Qed.

Lemma handed_on_weaken current evs : handed_on current evs → handed_on None evs.
Proof.
  revert current. induction evs as [|[name c content|name|name p content] evs IH];
    intros current H; cbn in *.
  - done.
  - destruct H as [_ H]. split; [done | by eapply IH].
  - by eapply IH.
  - done.
Qed.

Lemma run_trace_handed_on c names content out evs final :
  run_trace c names content out evs final →
  handed_on (Some content) evs ∧ left_with content evs = final.
Proof.
  induction 1 as [content|name0 names content
                 |name0 names content before aborts result content1
                  out evs final Hres Hrun [IH1 IH2]
                 |name0 names content before aborts content1
                 |name0 names content before aborts e0 content1].
  - done.
  - done.
  - rewrite handed_on_calls, left_with_calls.
    cbn [handed_on left_with]. rewrite handed_on_calls, left_with_calls.
    cbn [handed_on left_with]. split; [|done]. split; [by intros ? [= <-] | done].
  - rewrite handed_on_calls, left_with_calls.
    cbn [handed_on left_with]. rewrite handed_on_calls, left_with_calls.
    cbn [handed_on left_with]. split; [|done]. split; [by intros ? [= <-] | done].
  - rewrite handed_on_calls, left_with_calls.
    cbn [handed_on left_with]. rewrite handed_on_calls, left_with_calls.
    cbn [handed_on left_with]. split; [|done]. split; [by intros ? [= <-] | done].
Qed.

Lemma left_with_last current pre name p content :
  left_with current (pre ++ [Settled name p content]) = content.
Proof.
  revert current. induction pre as [|[]]; intros current; cbn; [done|..]; apply IHpre.
Qed.

(** *** What is written to the console *)

Lemma thrown_errors_app evs1 evs2 :
  thrown_errors (evs1 ++ evs2) = thrown_errors evs1 ++ thrown_errors evs2.
Proof. apply omap_app. Qed.

Lemma thrown_errors_calls aborts : thrown_errors (map AbortCalled aborts) = [].
Proof. induction aborts; [done | exact IHaborts]. Qed.

Lemma logged_refl σ : logged σ σ.
Proof. exists []. by rewrite !app_nil_r. Qed.

Lemma logged_trans σ1 σ2 σ3 : logged σ1 σ2 → logged σ2 σ3 → logged σ1 σ3.
Proof.
  intros (e1 & T1 & C1) (e2 & T2 & C2). exists (e1 ++ e2).
  by rewrite T2, T1, C2, C1, thrown_errors_app, !app_assoc.
Qed.

Lemma interleave_logged names σ : logged σ (interleave names σ).
Proof.
  destruct (interleave_host_only names σ) as ((T & _) & _ & C).
  exists (map AbortCalled names). by rewrite T, C, thrown_errors_calls, app_nil_r.
Qed.

Lemma unlogged_step (f : State → State) σ :
  trace (f σ) = trace σ → console (f σ) = console σ → logged σ (f σ).
Proof. intros T C. exists []. by rewrite T, C, !app_nil_r. Qed.

Lemma module_step_logged name c h call r σ :
  logged σ (module_step name c h call r σ).2.
Proof.
  unfold module_step.
  set (σ0 := log (Invoked name c (request r)) (with_objects h σ)).
  assert (H0 : logged σ σ0) by (exists [Invoked name c (request r)]; by rewrite app_nil_r).
  pose proof (interleave_logged (abort_calls (call.2)) σ0) as H1.
  set (σ1 := interleave (abort_calls (call.2)) σ0) in *.
  eapply logged_trans; [exact H0|]. eapply logged_trans; [exact H1|].
  destruct (settled (call.2)) as [result|e]; cbn [snd].
  - exists [Settled name (Resolved result) (call.1)]. by rewrite app_nil_r.
  - by exists [Settled name (Rejected e) (call.1)].
Qed.

Lemma module_call_logged host name c h call r σ :
  logged σ (module_step name c h call r
              (interleave (abort_calls_before host name) (with_objects h σ))).2.
Proof.
  eapply logged_trans; [|apply module_step_logged].
  eapply logged_trans; [|apply interleave_logged].
  by apply (unlogged_step (with_objects h) σ).
Qed.

Lemma processRequest_modules_logged host this modules environment c r σ :
  logged σ (processRequest_modules host this modules environment c r σ).2.
Proof.
  revert r σ. induction modules as [|[name main] modules IH]; intros r σ.
  - apply logged_refl.
  - cbn [processRequest_modules]. unfold bind at 1. unfold gets at 1.
    destruct (signal_aborted c σ); [by apply (unlogged_step _ σ)|].
    unfold bind at 1. rewrite executeRequestModule_eq.
    destruct (buildExecutionContext _ _ _ _) as [context h]. cbv zeta.
    set (call := fn main r h context _).
    pose proof (module_call_logged host name c h call r σ) as H1.
    destruct (module_step name c h call r _) as [[[result|e] r1] σ1]; [|done].
    destruct (is_ABORT result); [done|]. eapply logged_trans; [exact H1 | apply IH].
Qed.

Lemma processResponse_modules_logged host this executed response modules environment c r σ :
  logged σ (processResponse_modules host this executed response modules environment c r σ).2.
Proof.
  revert r σ. induction modules as [|[name main] modules IH]; intros r σ.
  - apply logged_refl.
  - cbn [processResponse_modules]. unfold bind at 1. unfold gets at 1.
    destruct (signal_aborted c σ); [by apply (unlogged_step _ σ)|].
    unfold bind at 1. rewrite executeResponseModule_eq.
    destruct (buildExecutionContext _ _ _ _) as [context h]. cbv zeta.
    set (call := fn main r executed response h context _).
    pose proof (module_call_logged host name c h call r σ) as H1.
    destruct (module_step name c h call r _) as [[[result|e] r1] σ1]; [|done].
    destruct (is_ABORT result); [|eapply logged_trans; [exact H1 | apply IH]].
    eapply logged_trans; [exact H1|]. by apply (unlogged_step _ σ1).
Qed.

(** *** Contexts built one after the other *)

Lemma built_context_lookup this permissions environment (h t : js_heap) :
  ((buildExecutionContext this permissions environment h).2 ++ t)
    !! (buildExecutionContext this permissions environment h).1
  = Some (JsObject (context_props this permissions environment (S (length h))
                      (S (length h) + length (events_part permissions))) true).
Proof.
  rewrite buildExecutionContext_eq. cbn [fst snd].
  rewrite <- app_assoc. cbn [app]. apply lookup_context_object.
Qed.

Lemma built_heap_length this permissions environment (h : js_heap) :
  (buildExecutionContext this permissions environment h).1 = length h ∧
  length h < length (buildExecutionContext this permissions environment h).2.
Proof.
  rewrite buildExecutionContext_eq. cbn [fst snd]. split; [done|].
  rewrite length_app. cbn. lia.
Qed.

Lemma built_heap_keeps this permissions environment (h : js_heap) l :
  l < length h →
  (buildExecutionContext this permissions environment h).2 !! l = h !! l.
Proof. rewrite buildExecutionContext_eq. cbn [snd]. apply lookup_app_l. Qed.

Lemma built_environment this permissions environment (h t : js_heap) :
  "environment" ∈ permissions →
  js_get (buildExecutionContext this permissions environment h).1 "environment"
    ((buildExecutionContext this permissions environment h).2 ++ t) = environment.
Proof.
  intros Hin. unfold js_get. rewrite built_context_lookup. cbn [props].
  destruct (context_props_lookups this permissions environment (S (length h))
              (S (length h) + length (events_part permissions))) as (_ & -> & _).
  apply includes_spec in Hin. by rewrite Hin.
Qed.

Lemma built_context_is_new this permissions environment (h : js_heap) :
  let context := (buildExecutionContext this permissions environment h).1 in
  let h' := (buildExecutionContext this permissions environment h).2 in
  h !! context = None ∧
  is_frozen h' context ∧
  (∀ k, js_has context k h' = true ↔ context_field permissions k) ∧
  (∀ l, l < length h → h' !! l = h !! l).
Proof.
  intros context h'.
  pose proof (built_context_lookup this permissions environment h []) as Hl.
  rewrite app_nil_r in Hl. fold context h' in Hl.
  destruct (built_heap_length this permissions environment h) as [Hc _].
  fold context in Hc. split_and!.
  - rewrite Hc. by apply lookup_ge_None_2.
  - eexists. split; [exact Hl | done].
  - intros k. unfold js_has. rewrite Hl. cbn [props].
    rewrite bool_decide_eq_true. apply context_props_fields.
  - intros l Hlt. by apply built_heap_keeps.
Qed.

(** ** The properties *)

(** X1. [abort(id)] with no controller under [id] changes nothing. With a
    controller under [id] it aborts that controller; in either case no entry
    is left under [id], every other entry of the map is as it was, and the
    signal of every controller other than the one under [id] reads as
    before. Calling it a second time changes nothing more. *)
Theorem abort_effect name σ :
  (abortControllers σ !! name = None → abort name σ = σ) ∧
  (∀ c, abortControllers σ !! name = Some c → c < length (controllers σ) →
        signal_aborted c (abort name σ) = true) ∧
  abortControllers (abort name σ) !! name = None ∧
  (∀ other, other ≠ name →
            abortControllers (abort name σ) !! other = abortControllers σ !! other) ∧
  (∀ c', abortControllers σ !! name ≠ Some c' →
         signal_aborted c' (abort name σ) = signal_aborted c' σ) ∧
  abort name (abort name σ) = abort name σ.
Proof.
  unfold abort. destruct (abortControllers σ !! name) as [c|] eqn:E.
  - split_and!; try done.
    + intros c0 [= <-] Hlt. unfold signal_aborted. cbn.
      by rewrite list_lookup_insert_eq.
    + cbn. apply lookup_delete_eq.
    + intros other Hne. cbn. by apply lookup_delete_ne.
    + intros c' Hne. unfold signal_aborted. cbn.
      rewrite list_lookup_insert_ne; [done|]. by intros ->.
    + cbn. by rewrite lookup_delete_eq.
  - split_and!; try done. by rewrite E.
Qed.

(** X2. The three public methods keep the map in order: if every controller
    the map holds has been created, is not aborted and is held under one id
    only, this is so again after [abort], after [processRequest] and after
    [processResponse], however they end. (It is so in the state a factory
    starts in, where the map is empty.) *)
Theorem registry_stays_in_order host this executed response options r name σ :
  registry_ok σ →
  registry_ok (abort name σ) ∧
  registry_ok (processRequest host this options r σ).2 ∧
  registry_ok (processResponse host this executed response options r σ).2.
Proof.
  intros Hok. split_and!.
  - by apply abort_registry_ok.
  - by apply processRequest_registry_ok.
  - by apply processResponse_registry_ok.
Qed.

(** X2, at a state whose map holds a controller, with the host calling
    [abort] for it during [processRequest]. *)
Lemma registry_stays_in_order_witness :
  registry_ok (abort "r1" faulty_state) ∧
  registry_ok (processRequest sample_host (sample_this ["r1"]) default_options
                 sample_request faulty_state).2 ∧
  registry_ok (processResponse sample_host (sample_this ["r1"]) sample_executed
                 sample_response default_options sample_request faulty_state).2.
Proof.
  apply registry_stays_in_order.
  unfold registry_ok. apply (bool_decide_unpack _). vm_compute. exact I.
Defined.

(** X3. [processResponse] honours [abort], short of one module. When it
    starts with a created controller in the map under the request's id, and
    [abort] is called for that id during the call: at most one module is
    invoked after that call of [abort], the one whose context was being
    awaited (the look at [signal.aborted] comes before that [await], the
    call of the module after it); and once a module has settled after the
    call of [abort], none is invoked. *)
Theorem processResponse_stops_after_abort host this executed response options r σ
    (c : loc) pre post :
  abortControllers σ !! id r = Some c →
  c < length (controllers σ) →
  trace (processResponse host this executed response options r σ).2
    = trace σ ++ pre ++ AbortCalled (id r) :: post →
  length (invoked_names post) ≤ 1 ∧
  ∀ post1 name p content post2,
    post = post1 ++ Settled name p content :: post2 → invoked_names post2 = [].
Proof.
  intros Hl Hlt. rewrite processResponse_trace_eq.
  pose proof (processResponse_run_spec host this executed response options r σ) as H.
  cbv zeta in H. unfold response_controller in H. rewrite Hl in H. cbn [fst snd] in H.
  destruct (processResponse_run host this executed response options r σ)
    as [[out r'] σ'].
  destruct H as (Hid & names & H). cbn [snd].
  destruct (interleave_host_only names σ) as ((T1 & _) & _).
  pose proof (interleave_armed (id r) c names σ Hl Hlt) as Harm.
  assert (Hcalls : invoked_names (map AbortCalled names) = []).
  { pose proof (invoked_names_calls names []) as Hc. by rewrite app_nil_r in Hc. }
  destruct H as [(e & -> & ->)|(r1 & environment & Hid1 & Heq)].
  - rewrite T1. intros Htr. apply app_inv_head in Htr.
    by eapply nothing_after.
  - pose proof (armed_loop host this executed response (responseModules σ) environment c r1
                  (interleave names σ)) as Hloop.
    pose proof (tripped_loop host this executed response (responseModules σ) environment
                  c r1 (interleave names σ)) as Htrip.
    pose proof (processResponse_modules_spec host this executed response (responseModules σ)
                  environment c r1 (interleave names σ)) as Hspec.
    destruct (processResponse_modules host this executed response (responseModules σ)
                environment c r1 (interleave names σ)) as [[lout r2] σ2].
    inversion Heq; subst out r' σ'. cbn [snd] in *.
    destruct (decide (id r ∈ names)) as [Hin|Hnin].
    + rewrite (Htrip Harm), T1. intros Htr. apply app_inv_head in Htr.
      by eapply nothing_after.
    + destruct Harm as [Hl1 Hlt1].
      destruct Hspec as (evs2 & σ'' & (T2 & _) & Hσ2 & _).
      assert (Htr2 : trace σ2 = trace (interleave names σ) ++ evs2).
      { rewrite Hσ2. by destruct (decide _). }
      rewrite Htr2, T1, <- app_assoc. intros Htr. apply app_inv_head in Htr.
      apply split_after in Htr as (pre' & Hevs2); [|by rewrite abort_call_in_calls].
      rewrite <- Hid1 in Hl1, Hevs2.
      by eapply (Hloop Hl1 Hlt1 evs2 pre' post).
Qed.

(** X3, at a run in which the host calls [abort] while the context of the
    first of two response modules is awaited: the first module is invoked
    all the same, the second is not. *)
Lemma processResponse_stops_after_abort_witness :
  trace (processResponse racing_host (sample_this []) sample_executed sample_response
           default_options sample_request waiting_state).2
    = [AbortCalled "r1"; Invoked "p1" 0 (edited "");
       Settled "p1" (Resolved None) (edited "x")] ∧
  length (invoked_names [Invoked "p1" 0 (edited "");
                         Settled "p1" (Resolved None) (edited "x")]) ≤ 1 ∧
  ∀ post1 name p content post2,
    [Invoked "p1" 0 (edited ""); Settled "p1" (Resolved None) (edited "x")]
      = post1 ++ Settled name p content :: post2 →
    invoked_names post2 = [].
Proof.
  split; [vm_compute; reflexivity|].
  apply (processResponse_stops_after_abort racing_host (sample_this []) sample_executed
           sample_response default_options sample_request waiting_state 0 []).
  - vm_compute. reflexivity.
  - vm_compute. lia.
  - vm_compute. reflexivity.
Defined.

(** X4. [processResponse] for a request with no controller in the map cannot
    be cancelled: the controller it creates is never put in the map, so its
    loop never leaves under [if (signal.aborted)], whatever the host aborts
    meanwhile, and the signal still reads [false] when the loop is over. *)
Theorem processResponse_unregistered_not_cancelled host this executed response options
    r σ :
  registry_wf σ →
  abortControllers σ !! id r = None →
  (∀ c, (processResponse_run host this executed response options r σ).1.1
          ≠ Resolved (c, Cancelled)) ∧
  (∀ c exit, (processResponse_run host this executed response options r σ).1.1
               = Resolved (c, exit) → c = length (controllers σ)) ∧
  signal_aborted (length (controllers σ))
    (processResponse_run host this executed response options r σ).2 = false.
Proof. apply processResponse_run_unregistered. Qed.

(** X4, at a run during which the host calls [abort] for the request's id. *)
Lemma processResponse_unregistered_not_cancelled_witness :
  (∀ c, (processResponse_run sample_host (sample_this []) sample_executed sample_response
           default_options sample_request unsent_state).1.1 ≠ Resolved (c, Cancelled)) ∧
  (∀ c exit, (processResponse_run sample_host (sample_this []) sample_executed
                sample_response default_options sample_request unsent_state).1.1
               = Resolved (c, exit) → c = length (controllers unsent_state)) ∧
  signal_aborted (length (controllers unsent_state))
    (processResponse_run sample_host (sample_this []) sample_executed sample_response
       default_options sample_request unsent_state).2 = false.
Proof.
  apply processResponse_unregistered_not_cancelled.
  - unfold registry_wf. apply (bool_decide_unpack _). vm_compute. exact I.
  - vm_compute. reflexivity.
Defined.

(** X5. A call of [abort(request.id)] made before [processResponse] starts
    does not cancel it: [abort] removes the controller from the map, so
    [processResponse] runs with a new controller, not with the one that was
    aborted, and never leaves its loop under [if (signal.aborted)]. *)
Theorem abort_before_processResponse_has_no_effect host this executed response options
    r σ :
  registry_wf σ →
  (∀ c, (processResponse_run host this executed response options r
           (abort (id r) σ)).1.1 ≠ Resolved (c, Cancelled)) ∧
  (∀ c exit, (processResponse_run host this executed response options r
                (abort (id r) σ)).1.1 = Resolved (c, exit) →
             abortControllers σ !! id r ≠ Some c).
Proof.
  intros Hwf.
  assert (Hwf' : registry_wf (abort (id r) σ)) by (by apply abort_wf).
  destruct (abort_facts (id r) σ) as (_ & R & L & _).
  assert (Hnone : abortControllers (abort (id r) σ) !! id r = None)
    by (rewrite R; apply lookup_delete_eq).
  destruct (processResponse_run_unregistered host this executed response
              options r _ Hwf' Hnone) as (H1 & H2 & _).
  split; [exact H1|]. intros c exit Hc Hl. apply H2 in Hc. rewrite L in Hc.
  apply Hwf in Hl. cbn in Hl. lia.
Qed.

(** X5, at the state a successful [processRequest] leaves. *)
Lemma abort_before_processResponse_has_no_effect_witness :
  (∀ c, (processResponse_run sample_host (sample_this []) sample_executed sample_response
           default_options sent_request
           (abort (id sent_request) (sent_state (Resolved None)))).1.1
          ≠ Resolved (c, Cancelled)) ∧
  (∀ c exit, (processResponse_run sample_host (sample_this []) sample_executed
                sample_response default_options sent_request
                (abort (id sent_request) (sent_state (Resolved None)))).1.1
               = Resolved (c, exit) →
             abortControllers (sent_state (Resolved None)) !! id sent_request ≠ Some c).
Proof.
  apply abort_before_processResponse_has_no_effect.
  unfold registry_wf. apply (bool_decide_unpack _). vm_compute. exact I.
Defined.

(** X6. When [processRequest] resolves to [null], a module returned [ABORT]
    and its settlement is the last event of the call: there is no other way
    for the call to resolve to [null]. *)
Theorem processRequest_null_is_a_veto host this options r σ :
  registry_wf σ →
  (processRequest host this options r σ).1.1 = Resolved None →
  ∃ pre name content,
    trace (processRequest host this options r σ).2
      = trace σ ++ pre ++ [Settled name (Resolved (Some ABORT)) content].
Proof.
  intros Hwf. rewrite processRequest_eq.
  pose proof (processRequest_run_not_cancelled host this options r σ Hwf) as Hnc.
  pose proof (processRequest_run_summary host this options r σ) as H. cbv zeta in H.
  destruct (processRequest_run host this options r σ) as [[out r'] σ']. cbn [fst snd] in *.
  destruct H as (_ & names & evs & σ'' & (T & _) & -> & H).
  destruct H as [(e & -> & ->)|(content & lout & -> & Hrun)]; [done|].
  apply run_trace_last in Hrun.
  destruct lout as [[]|e]; cbn [tag_exit]; try done.
  - by destruct (Hnc (length (controllers σ))).
  - intros _. destruct Hrun as (pre & name & content' & ->).
    exists (map AbortCalled names ++ pre), name, content'.
    rewrite decide_False by done. cbn [snd]. by rewrite T, <- !app_assoc.
Qed.

(** X6, at a run in which the second module returns [ABORT] and the host
    calls [abort] for the request's id meanwhile. *)
Lemma processRequest_null_is_a_veto_witness :
  ∃ pre name content,
    trace (processRequest sample_host (sample_this ["r1"]) default_options sample_request
             vetoing_state).2
      = trace vetoing_state ++ pre ++ [Settled name (Resolved (Some ABORT)) content].
Proof.
  apply processRequest_null_is_a_veto.
  - unfold registry_wf. apply (bool_decide_unpack _). vm_compute. exact I.
  - vm_compute. reflexivity.
Defined.

(** X7. In either pipeline each module is invoked on the request as the
    module before it left it, and the request object is left, when the call
    ends, with the content the last module to settle left. *)
Theorem edits_are_handed_on host this executed response options r σ :
  (∃ evs,
     trace (processRequest host this options r σ).2 = trace σ ++ evs ∧
     handed_on None evs ∧
     ∀ pre name p content,
       evs = pre ++ [Settled name p content] →
       request (processRequest host this options r σ).1.2 = content) ∧
  (∃ evs,
     trace (processResponse host this executed response options r σ).2 = trace σ ++ evs ∧
     handed_on None evs ∧
     ∀ pre name p content,
       evs = pre ++ [Settled name p content] →
       request (processResponse host this executed response options r σ).1.2 = content).
Proof.
  split.
  - pose proof (processRequest_summary host this options r σ) as H. cbv zeta in H.
    destruct (processRequest host this options r σ) as [[out r'] σ']. cbn [fst snd].
    destruct H as (Hid & names & evs & σ'' & (T & _) & H).
    exists (map AbortCalled names ++ evs).
    destruct H as [(e & _ & -> & ->)|(content & lout & Hrun & Heq)].
    + split; [done|]. split; [by apply handed_on_calls|].
      intros pre name p content Heq. rewrite app_nil_r in Heq.
      assert (Hin : Settled name p content ∈ map AbortCalled names)
        by (rewrite Heq; set_solver).
      apply list_elem_of_fmap in Hin as (? & ? & _). done.
    + pose proof (request_outcome_frame (length (controllers σ)) r' lout σ'') as (T' & _).
      rewrite <- Heq in T'. cbn [snd] in T'.
      destruct (run_trace_handed_on _ _ _ _ _ _ Hrun) as [Hh Hl].
      split; [by rewrite T', T|]. split.
      * apply handed_on_calls. by eapply handed_on_weaken.
      * intros pre name p content' Hevs.
        rewrite <- Hl, <- (left_with_calls content names evs), Hevs.
        by rewrite left_with_last.
  - pose proof (processResponse_summary host this executed response options r σ) as H.
    cbv zeta in H.
    destruct (processResponse host this executed response options r σ)
      as [[out r'] σ']. cbn [fst snd].
    destruct H as (Hid & names & evs & σ'' & (T & _) & H).
    exists (map AbortCalled names ++ evs).
    destruct H as [(e & _ & -> & ->)|(content & lout & Hrun & Heq)].
    + split; [done|]. split; [by apply handed_on_calls|].
      intros pre name p content Heq. rewrite app_nil_r in Heq.
      assert (Hin : Settled name p content ∈ map AbortCalled names)
        by (rewrite Heq; set_solver).
      apply list_elem_of_fmap in Hin as (? & ? & _). done.
    + pose proof (response_outcome_frame r' lout σ'') as (T' & _).
      rewrite <- Heq in T'. cbn [snd] in T'.
      destruct (run_trace_handed_on _ _ _ _ _ _ Hrun) as [Hh Hl].
      split; [by rewrite T', T|]. split.
      * apply handed_on_calls. by eapply handed_on_weaken.
      * intros pre name p content' Hevs.
        rewrite <- Hl, <- (left_with_calls content names evs), Hevs.
        by rewrite left_with_last.
Qed.

(** X8. What either pipeline writes to the console is exactly the errors its
    modules threw, as thrown (not the wrapped error it rejects with), in the
    order of the trace; a call in which no module throws writes nothing. *)
Theorem console_holds_the_thrown_errors host this executed response options r σ :
  (∃ evs,
     trace (processRequest host this options r σ).2 = trace σ ++ evs ∧
     console (processRequest host this options r σ).2
       = console σ ++ thrown_errors evs) ∧
  (∃ evs,
     trace (processResponse host this executed response options r σ).2
       = trace σ ++ evs ∧
     console (processResponse host this executed response options r σ).2
       = console σ ++ thrown_errors evs).
Proof.
  split.
  - change (logged σ (processRequest host this options r σ).2).
    rewrite processRequest_eq.
    pose proof (processRequest_run_spec host this options r σ) as H. cbv zeta in H.
    destruct (processRequest_run host this options r σ) as [[out r'] σ'].
    destruct H as (_ & names & H).
    assert (H1 : logged σ (interleave names (new_AbortController σ).2)).
    { eapply logged_trans; [|apply interleave_logged]. by apply (unlogged_step _ σ). }
    destruct H as [(e & -> & ->)|(r1 & environment & _ & Heq)]; [done|].
    pose proof (processRequest_modules_logged host this (requestModules σ) environment
                  (length (controllers σ)) r1
                  (interleave names (new_AbortController σ).2)) as H2.
    destruct (processRequest_modules _ _ _ _ _ _ _) as [[lout r2] σ2].
    inversion Heq; subst out r' σ'. cbn [snd] in *.
    pose proof (logged_trans _ _ _ H1 H2) as H3.
    by destruct lout as [[]|e].
  - change (logged σ (processResponse host this executed response options r σ).2).
    rewrite processResponse_eq.
    pose proof (processResponse_run_spec host this executed response options r σ) as H.
    cbv zeta in H.
    destruct (processResponse_run host this executed response options r σ)
      as [[out r'] σ'].
    destruct H as (_ & names & H).
    assert (H1 : logged σ (interleave names (response_controller r σ).2)).
    { eapply logged_trans; [|apply interleave_logged].
      unfold response_controller. destruct (abortControllers σ !! id r).
      - apply logged_refl.
      - by apply (unlogged_step _ σ). }
    destruct H as [(e & -> & ->)|(r1 & environment & _ & Heq)]; [done|].
    pose proof (processResponse_modules_logged host this executed response (responseModules σ)
                  environment (response_controller r σ).1 r1
                  (interleave names (response_controller r σ).2)) as H2.
    destruct (processResponse_modules _ _ _ _ _ _ _ _ _) as [[lout r2] σ2].
    inversion Heq; subst out r' σ'. cbn [snd] in *.
    pose proof (logged_trans _ _ _ H1 H2) as H3.
    by destruct lout as [[]|e].
Qed.

(** X9, at a [processResponse] that follows a successful [processRequest]. *)
Lemma processResponse_resolved_ends_token_witness :
  abortControllers (sent_state (Resolved None)) !! id sent_request = Some 0 ∧
  abortControllers
    (processResponse sample_host (sample_this []) sample_executed sample_response
       default_options sent_request (sent_state (Resolved None))).2 !! id sent_request
    = None.
Proof.
  split; [vm_compute; reflexivity|].
  apply processResponse_resolved_ends_token. vm_compute. reflexivity.
Defined.

(** X10. When a request module returns [ABORT], [processRequest] resolves to
    [null] and leaves the map alone: unlike the exit under
    [if (signal.aborted)] it deletes nothing, so the map is what it was
    before the call less the ids the host called [abort] with meanwhile, and
    a controller of an earlier run stays under the request's id. *)
Theorem module_ABORT_leaves_registry host this options r σ evs name content :
  trace (processRequest host this options r σ).2 = trace σ ++ evs →
  Settled name (Resolved (Some ABORT)) content ∈ evs →
  (processRequest host this options r σ).1.1 = Resolved None ∧
  abortControllers (processRequest host this options r σ).2
    = foldl (λ m name, delete name m) (abortControllers σ) (abort_names evs) ∧
  (∀ n c, abortControllers σ !! n = Some c → n ∉ abort_names evs →
          abortControllers (processRequest host this options r σ).2 !! n = Some c).
Proof.
  intros Htr Hin. apply list_elem_of_split in Hin as (pre & post & ->).
  pose proof (processRequest_settled host this options r σ pre name
                (Resolved (Some ABORT)) content post) as H.
  destruct (processRequest host this options r σ) as [[out r'] σ']. cbn [fst snd] in *.
  destruct (H Htr) as (Hid & names & evs & pre' & content0 & lout & σ'' &
                       (T & R & _) & Hevs & Hrun & Heq).
  destruct (run_trace_halts _ _ _ _ _ _ Hrun _ _ _ _ _ Hevs eq_refl) as (-> & _ & ->).
  inversion Heq; subst out σ'.
  assert (Hnew : map AbortCalled names ++ evs
                 = pre ++ [Settled name (Resolved (Some ABORT)) content]).
  { rewrite Htr in T. by apply app_inv_head in T. }
  rewrite Hnew in R. split_and!; [done | done |].
  intros n c Hl Hnin. rewrite R. clear -Hl Hnin.
  revert Hl Hnin. generalize (abortControllers σ).
  induction (abort_names (pre ++ [Settled name (Resolved (Some ABORT)) content]))
    as [|a l IH]; intros m Hl Hnin; [done|].
  cbn. apply IH; [|set_solver]. rewrite lookup_delete_ne; [done|]. set_solver.
Qed.

(** X10, at a run in which the second module returns [ABORT], the map holds
    controllers under "r1" and "r2", and the host calls [abort("r2")]. *)
Lemma module_ABORT_leaves_registry_witness :
  (processRequest sample_host (sample_this []) default_options sample_request
     vetoing_state).1.1 = Resolved None ∧
  abortControllers (processRequest sample_host (sample_this []) default_options
                      sample_request vetoing_state).2 !! "r1" = Some 0 ∧
  abortControllers (processRequest sample_host (sample_this []) default_options
                      sample_request vetoing_state).2 !! "r2" = None.
Proof.
  pose proof (module_ABORT_leaves_registry sample_host (sample_this [])
    default_options sample_request vetoing_state
    [Invoked "m1" 2 (edited ""); AbortCalled "r2";
     Settled "m1" (Resolved None) (edited "a"); Invoked "m2" 2 (edited "a");
     Settled "m2" (Resolved (Some ABORT)) (edited "ab")]
    "m2" (edited "ab")) as H.
  destruct H as (H1 & H2 & H3).
  - vm_compute. reflexivity.
  - do 4 apply list_elem_of_further. apply list_elem_of_here.
  - split; [exact H1|]. split.
    + apply H3; [vm_compute; reflexivity|]. vm_compute. set_solver.
    + rewrite H2. vm_compute. reflexivity.
Defined.

(** X11. Contexts built one after the other from the same environment are
    distinct objects that refer to the same environment object: an
    assignment to a field of the environment, which is not frozen, is read
    through both. *)
Theorem contexts_share_the_environment this permissions1 permissions2 (e : loc) o
    (h : js_heap) k v :
  h !! e = Some o → frozen o = false →
  "environment" ∈ permissions1 → "environment" ∈ permissions2 →
  let c1 := (buildExecutionContext this permissions1 (JsRef e) h).1 in
  let h1 := (buildExecutionContext this permissions1 (JsRef e) h).2 in
  let c2 := (buildExecutionContext this permissions2 (JsRef e) h1).1 in
  let h2 := (buildExecutionContext this permissions2 (JsRef e) h1).2 in
  let h3 := js_assign e k v h2 in
  c1 ≠ c2 ∧
  js_get c1 "environment" h3 = JsRef e ∧
  js_get c2 "environment" h3 = JsRef e ∧
  js_get e k h3 = v.
Proof.
  intros He Hf Hin1 Hin2 c1 h1 c2 h2 h3.
  destruct (built_heap_length this permissions1 (JsRef e) h) as [Hc1 Hlen1].
  destruct (built_heap_length this permissions2 (JsRef e) h1) as [Hc2 Hlen2].
  fold c1 h1 in Hc1, Hlen1. fold c2 h2 in Hc2, Hlen2.
  assert (Hlt : e < length h) by (by eapply lookup_lt_Some).
  assert (He2 : h2 !! e = Some o).
  { unfold h2. rewrite built_heap_keeps by lia.
    unfold h1. by rewrite built_heap_keeps. }
  assert (Hh3 : h3 = <[e := JsObject (<[k := v]> (props o)) false]> h2).
  { unfold h3, js_assign. by rewrite He2, Hf. }
  assert (Hother : ∀ l name, l ≠ e → js_get l name h3 = js_get l name h2).
  { intros l name Hne. unfold js_get. by rewrite Hh3, list_lookup_insert_ne. }
  split_and!.
  - lia.
  - rewrite Hother by lia.
    assert (Hsplit : ∃ t, h2 = h1 ++ t).
    { unfold h2. rewrite buildExecutionContext_eq. cbn [snd]. by eexists. }
    destruct Hsplit as [t ->]. unfold c1, h1. by apply built_environment.
  - rewrite Hother by lia.
    pose proof (built_environment this permissions2 (JsRef e) h1 [] Hin2) as H.
    rewrite app_nil_r in H. exact H.
  - unfold js_get. rewrite Hh3, list_lookup_insert_eq by lia. cbn [props].
    by rewrite lookup_insert_eq.
Qed.

(** X11, at two contexts built over the sample heap. *)
Lemma contexts_share_the_environment_witness :
  let c1 := (buildExecutionContext (sample_this []) ["environment"] (JsRef 0)
               sample_heap).1 in
  let h1 := (buildExecutionContext (sample_this []) ["environment"] (JsRef 0)
               sample_heap).2 in
  let c2 := (buildExecutionContext (sample_this []) ["store"; "environment"] (JsRef 0)
               h1).1 in
  let h2 := (buildExecutionContext (sample_this []) ["store"; "environment"] (JsRef 0)
               h1).2 in
  let h3 := js_assign 0 "variables" (JsString "host=evil.example") h2 in
  c1 ≠ c2 ∧
  js_get c1 "environment" h3 = JsRef 0 ∧
  js_get c2 "environment" h3 = JsRef 0 ∧
  js_get 0 "variables" h3 = JsString "host=evil.example".
Proof.
  apply (contexts_share_the_environment (sample_this []) ["environment"]
           ["store"; "environment"] 0
           (JsObject {[ "variables" := JsString "host=example.org" ]} false)).
  - reflexivity.
  - reflexivity.
  - apply (bool_decide_unpack _). vm_compute. exact I.
  - apply (bool_decide_unpack _). vm_compute. exact I.
Defined.

(** X12. [executeRequestModule] and [executeResponseModule] call the module's
    function with a context built for that call from the module's own
    permissions: an object that did not exist before, frozen, with exactly
    the fields those permissions imply, built without changing any object
    that existed. The module is called once the host has had its turn, in
    the heap the context was built in, with the signal as it reads then. *)
Theorem module_is_called_with_its_own_context host this executed response name
    (request_info : RegisteredRequestModule) (response_info : RegisteredResponseModule)
    environment c r σ :
  (let context := (buildExecutionContext this (permissions request_info) environment
                     (objects σ)).1 in
   let h' := (buildExecutionContext this (permissions request_info) environment
                (objects σ)).2 in
   let σ1 := interleave (abort_calls_before host name) (with_objects h' σ) in
   executeRequestModule host this name request_info environment c r σ
     = module_step name c h' (fn request_info r h' context (signal_aborted c σ1)) r σ1 ∧
   objects σ1 = h' ∧
   objects σ !! context = None ∧
   is_frozen h' context ∧
   (∀ k, js_has context k h' = true ↔ context_field (permissions request_info) k) ∧
   (∀ l, l < length (objects σ) → h' !! l = objects σ !! l)) ∧
  (let context := (buildExecutionContext this (permissions response_info) environment
                     (objects σ)).1 in
   let h' := (buildExecutionContext this (permissions response_info) environment
                (objects σ)).2 in
   let σ1 := interleave (abort_calls_before host name) (with_objects h' σ) in
   executeResponseModule host this executed response name response_info environment c r σ
     = module_step name c h'
         (fn response_info r executed response h' context (signal_aborted c σ1)) r σ1 ∧
   objects σ1 = h' ∧
   objects σ !! context = None ∧
   is_frozen h' context ∧
   (∀ k, js_has context k h' = true ↔ context_field (permissions response_info) k) ∧
   (∀ l, l < length (objects σ) → h' !! l = objects σ !! l)).
Proof.
  split; cbv zeta.
  - split; [|split; [|apply built_context_is_new]].
    + rewrite executeRequestModule_eq. by destruct (buildExecutionContext _ _ _ _).
    + by destruct (interleave_host_only (abort_calls_before host name)
                     (with_objects (buildExecutionContext this (permissions request_info)
                                      environment (objects σ)).2 σ)) as (_ & -> & _).
  - split; [|split; [|apply built_context_is_new]].
    + rewrite executeResponseModule_eq. by destruct (buildExecutionContext _ _ _ _).
    + by destruct (interleave_host_only (abort_calls_before host name)
                     (with_objects (buildExecutionContext this (permissions response_info)
                                      environment (objects σ)).2 σ)) as (_ & -> & _).
Qed.


(** *** Permission lists *)

Lemma constructor_registry_ok requests responses h :
  registry_ok (constructor requests responses h).
Proof. apply map_Forall_empty. Qed.

Lemma includes_ext permissions1 permissions2 name :
  (name ∈ permissions1 ↔ name ∈ permissions2) →
  includes permissions1 name = includes permissions2 name.
Proof. intros H. unfold includes. by apply bool_decide_ext. Qed.

Lemma built_get this permissions environment (h : js_heap) k :
  js_get (buildExecutionContext this permissions environment h).1 k
    (buildExecutionContext this permissions environment h).2
  = default JsUndefined
      (context_props this permissions environment (S (length h))
         (S (length h) + length (events_part permissions)) !! k).
Proof.
  unfold js_get.
  pose proof (built_context_lookup this permissions environment h []) as H.
  rewrite app_nil_r in H. by rewrite H.
Qed.

Lemma built_Events this permissions environment (h : js_heap) k :
  bundle_get (buildExecutionContext this permissions environment h).1 "Events" k
    (buildExecutionContext this permissions environment h).2
  = if includes permissions "events"
    then default JsUndefined (props events_object !! k) else JsUndefined.
Proof.
  unfold bundle_get. rewrite built_get.
  destruct (context_props_lookups this permissions environment (S (length h))
              (S (length h) + length (events_part permissions))) as (_ & _ & -> & _).
  destruct (includes permissions "events") eqn:E; [|done]. cbn [default Datatypes.id].
  rewrite buildExecutionContext_eq. cbn [snd]. unfold js_get.
  by rewrite lookup_events_object.
Qed.

Lemma built_Store this permissions environment (h : js_heap) k :
  bundle_get (buildExecutionContext this permissions environment h).1 "Store" k
    (buildExecutionContext this permissions environment h).2
  = if includes permissions "store"
    then default JsUndefined
           (props (store_object (includes permissions "environment")) !! k)
    else JsUndefined.
Proof.
  unfold bundle_get. rewrite built_get.
  destruct (context_props_lookups this permissions environment (S (length h))
              (S (length h) + length (events_part permissions))) as (_ & _ & _ & ->).
  destruct (includes permissions "store") eqn:E; [|done]. cbn [default Datatypes.id].
  rewrite buildExecutionContext_eq. cbn [snd]. unfold js_get.
  by rewrite lookup_store_object.
Qed.

Lemma store_object_grows (b b' : bool) k :
  (b = true → b' = true) →
  default JsUndefined (props (store_object b) !! k) ≠ JsUndefined →
  props (store_object b') !! k = props (store_object b) !! k.
Proof.
  intros Hb Hk. destruct b, b'; try done; [by discriminate Hb|].
  unfold store_object in *. cbn [props] in *.
  destruct (decide (k = "Variable")) as [->|Hv]; [by vm_compute in Hk|].
  destruct (decide (k = "Environment")) as [->|He]; [by vm_compute in Hk|].
  by rewrite !lookup_insert_ne.
Qed.

Lemma includes_mono permissions permissions' name :
  permissions ⊆ permissions' →
  includes permissions name = true → includes permissions' name = true.
Proof. rewrite !includes_spec. intros H. apply H. Qed.

(** X14. In every state a factory can be in, from its construction on and
    through any sequence of [abort], [processRequest] and [processResponse]
    calls, each run until it settles: every controller the map holds has
    been created, is not aborted and is held under one id only. *)
Theorem factory_states_are_in_order σ :
  factory_state σ → registry_ok σ ∧ registry_wf σ.
Proof.
  intros H. assert (Hok : registry_ok σ); [|split; [done | by apply registry_ok_wf]].
  induction H as [requests responses h | σ σ' _ IH Hm Hc | name σ _ IH
                 | host this options r σ _ IH
                 | host this executed response options r σ _ IH].
  - apply constructor_registry_ok.
  - apply registry_ok_spec. intros name c. rewrite Hm, Hc.
    by apply (proj1 (registry_ok_spec σ)).
  - by apply abort_registry_ok.
  - by apply processRequest_registry_ok.
  - by apply processResponse_registry_ok.
Qed.

(** X14, at the state left by a [processRequest] during which the host
    aborts, then an [abort] for another id, then a [processResponse]. *)
Lemma factory_states_are_in_order_witness :
  registry_ok
    (processResponse sample_host (sample_this []) sample_executed sample_response
       default_options sample_request
       (abort "r2"
          (processRequest sample_host (sample_this ["r1"]) default_options sample_request
             (sample_state ["r1"] (Resolved None) (Resolved None))).2)).2 ∧
  registry_wf
    (processResponse sample_host (sample_this []) sample_executed sample_response
       default_options sample_request
       (abort "r2"
          (processRequest sample_host (sample_this ["r1"]) default_options sample_request
             (sample_state ["r1"] (Resolved None) (Resolved None))).2)).2.
Proof.
  apply factory_states_are_in_order.
  apply fs_processResponse, fs_abort, fs_processRequest, fs_constructor.
Defined.

(** X15. [buildExecutionContext] reads its permission list only through
    whether it includes "environment", "events" and "store": order,
    repetitions and other entries make no difference to the context and the
    heap it builds. *)
Theorem permissions_matter_by_membership this permissions1 permissions2 environment
    (h : js_heap) :
  (∀ p, p ∈ ["environment"; "events"; "store"] →
        p ∈ permissions1 ↔ p ∈ permissions2) →
  buildExecutionContext this permissions1 environment h
    = buildExecutionContext this permissions2 environment h.
Proof.
  intros H. rewrite !buildExecutionContext_eq.
  unfold context_props, events_part, store_part.
  rewrite (includes_ext permissions1 permissions2 "environment") by (apply H; set_solver).
  rewrite (includes_ext permissions1 permissions2 "events") by (apply H; set_solver).
  by rewrite (includes_ext permissions1 permissions2 "store") by (apply H; set_solver).
Qed.

(** X15, at a list with a repetition and an unknown entry. *)
Lemma permissions_matter_by_membership_witness :
  buildExecutionContext (sample_this []) ["store"; "cookies"; "environment"; "store"]
    (JsRef 0) sample_heap
  = buildExecutionContext (sample_this []) ["environment"; "store"] (JsRef 0) sample_heap.
Proof.
  apply permissions_matter_by_membership.
  intros p Hp. set_solver.
Defined.

(** X16. More permissions never take a capability away: with a longer
    permission list the context has every field it had, [eventsTarget] and
    [environment] read the same, and every field of the [Events] and [Store]
    bundles that could be read reads the same. *)
Theorem more_permissions_more_capabilities this permissions permissions' environment
    (h : js_heap) :
  permissions ⊆ permissions' →
  let c := (buildExecutionContext this permissions environment h).1 in
  let h1 := (buildExecutionContext this permissions environment h).2 in
  let c' := (buildExecutionContext this permissions' environment h).1 in
  let h2 := (buildExecutionContext this permissions' environment h).2 in
  (∀ k, js_has c k h1 = true → js_has c' k h2 = true) ∧
  (∀ k, k = "eventsTarget" ∨ k = "environment" →
        js_has c k h1 = true → js_get c' k h2 = js_get c k h1) ∧
  (∀ bundle k, bundle = "Events" ∨ bundle = "Store" →
               bundle_get c bundle k h1 ≠ JsUndefined →
               bundle_get c' bundle k h2 = bundle_get c bundle k h1).
Proof.
  intros Hsub c h1 c' h2.
  destruct (built_context_is_new this permissions environment h) as (_ & _ & Hf & _).
  destruct (built_context_is_new this permissions' environment h) as (_ & _ & Hf' & _).
  fold c h1 in Hf. fold c' h2 in Hf'.
  split; [|split].
  - intros k Hk. apply Hf'. apply Hf in Hk. unfold context_field in *.
    destruct Hk as [->|[[-> Hin]|[[-> Hin]|[-> Hin]]]]; auto 10.
  - intros k Hk Hhas. apply Hf in Hhas. unfold c, h1, c', h2. rewrite !built_get.
    destruct (context_props_lookups this permissions environment (S (length h))
                (S (length h) + length (events_part permissions))) as (Ht & He & _).
    destruct (context_props_lookups this permissions' environment (S (length h))
                (S (length h) + length (events_part permissions'))) as (Ht' & He' & _).
    destruct Hk as [-> | ->]; [by rewrite Ht, Ht'|].
    rewrite He, He'. unfold context_field in Hhas.
    destruct Hhas as [?|[[_ Hin]|[[? _]|[? _]]]]; try done.
    apply includes_spec in Hin. rewrite Hin.
    by rewrite (includes_mono permissions permissions' "environment" Hsub Hin).
  - intros bundle k [-> | ->]; unfold c, h1, c', h2.
    + rewrite !built_Events.
      destruct (includes permissions "events") eqn:E; [|done].
      by rewrite (includes_mono permissions permissions' "events" Hsub E).
    + rewrite !built_Store.
      destruct (includes permissions "store") eqn:E; [|done].
      rewrite (includes_mono permissions permissions' "store" Hsub E).
      intros Hk. f_equal. apply store_object_grows; [|done].
      apply includes_mono, Hsub.
Qed.

(** X16, from the "store" permission alone to all three. *)
Lemma more_permissions_more_capabilities_witness :
  let c := (buildExecutionContext (sample_this []) ["store"] (JsRef 0) sample_heap).1 in
  let h1 := (buildExecutionContext (sample_this []) ["store"] (JsRef 0) sample_heap).2 in
  let c' := (buildExecutionContext (sample_this []) ["events"; "store"; "environment"]
               (JsRef 0) sample_heap).1 in
  let h2 := (buildExecutionContext (sample_this []) ["events"; "store"; "environment"]
               (JsRef 0) sample_heap).2 in
  (∀ k, js_has c k h1 = true → js_has c' k h2 = true) ∧
  (∀ k, k = "eventsTarget" ∨ k = "environment" →
        js_has c k h1 = true → js_get c' k h2 = js_get c k h1) ∧
  (∀ bundle k, bundle = "Events" ∨ bundle = "Store" →
               bundle_get c bundle k h1 ≠ JsUndefined →
               bundle_get c' bundle k h2 = bundle_get c bundle k h1).
Proof.
  apply (more_permissions_more_capabilities (sample_this []) ["store"]
           ["events"; "store"; "environment"] (JsRef 0) sample_heap).
  set_solver.
Defined.
